(** * DynSLAM instance tracks: [instreclib::reconstruction::Track]

    A shallow embedding of [src/DynSLAM/InstRecLib/Track.h] and the
    properties of its member functions.

    Conventions of the embedding:
    - a C++ [int] or [size_t] value is a [Z]; the one conversion the header
      performs ([int] to [size_t] in [frames_[i]]) is written out;
    - [std::vector<T>] is a [list T]; [front], [back] and [operator[]] are
      partial, and their missing cases are the calls the C++ standard leaves
      undefined;
    - a member function is a computation over the object it is called on
      and the process's standard error stream, ending in an [outcome];
    - a real number of the program ([float], [double]) is an exact rational
      ([Qc]): rounding is not part of the model. *)

From Stdlib Require Import ZArith QArith Qcanon Lia Ascii String.
From stdpp Require Import base option list sorting strings pretty.

Local Open Scope Z_scope.

(** ** Outcomes of a call *)

(** The failures the specification talks about.  Nothing in [Track.h]
    raises one: they are here so that this can be stated. *)
Inductive signal : Set :=
| InvariantViolation
| EmptyState.

Inductive outcome (A : Type) : Type :=
| Ret (a : A)          (* the call returns [a] *)
| Raise (s : signal)   (* the call fails in a defined way *)
| Undef.               (* undefined behaviour: the standard promises nothing *)

Arguments Ret {A} a.
Arguments Raise {A} s.
Arguments Undef {A}.

(** ** Computations over a state *)

Definition comp (S A : Type) : Type := S -> outcome (A * S).

Definition ret {S A} (a : A) : comp S A := fun s => Ret (a, s).

Definition bind {S A B} (c : comp S A) (k : A -> comp S B) : comp S B :=
  fun s =>
    match c s with
    | Ret (a, s') => k a s'
    | Raise e => Raise e
    | Undef => Undef
    end.

Notation "x <- c ;; k" := (bind c (fun x => k))
  (at level 100, c at next level, right associativity).

(** A library call with a precondition: [None] is the call the standard
    leaves undefined. *)
Definition defined {S A} (o : option A) : comp S A :=
  fun s => match o with Some a => Ret (a, s) | None => Undef end.

(** ** [std::vector] *)

Module vector.

Definition size {A} (v : list A) : Z := Z.of_nat (length v).

(** [front()] and [back()]: defined on a non-empty vector only. *)
Definition front {A} (v : list A) : option A := head v.
Definition back {A} (v : list A) : option A := last v.

(** [operator[](size_type n)]: no bounds check, defined for [n < size()]. *)
Definition subscript {A} (v : list A) (n : Z) : option A :=
  if bool_decide (0 <= n) then v !! Z.to_nat n else None.

Definition push_back {A} (v : list A) (x : A) : list A := v ++ [x].

(** An upper bound of [max_size()] on the 64-bit target: no vector has more
    than [PTRDIFF_MAX] elements. *)
Definition max_size : Z := 2 ^ 63 - 1.

End vector.

(** ** Integer types *)

Definition INT_MIN : Z := - 2 ^ 31.
Definition INT_MAX : Z := 2 ^ 31 - 1.
Definition is_int (i : Z) : Prop := INT_MIN <= i <= INT_MAX.

(** The implicit conversion of an [int] to [size_t] (64 bits, unsigned). *)
Definition to_size_t (i : Z) : Z := i mod 2 ^ 64.

(** ** Formatted output *)

Definition newline : string := String "010"%char "".

(** ["Deleting track [%d] and its associated reconstruction!\n"] with the
    [int] argument printed in decimal. *)
Definition deleting_message (id : Z) : string :=
  "Deleting track [" +:+ pretty id +:+ "] and its associated reconstruction!" +:+ newline.

(** ** Matrices: [Eigen::Matrix4f], [Eigen::Matrix4d] *)

Record Vector4 : Set := mkVector4 { c0 : Qc; c1 : Qc; c2 : Qc; c3 : Qc }.
Record Matrix4 : Set := mkMatrix4 { r0 : Vector4; r1 : Vector4; r2 : Vector4; r3 : Vector4 }.

(** The operations of Eigen the program uses, on exact entries. *)
Module Matrix.

Local Open Scope Qc_scope.

Definition row (m : Matrix4) (i : nat) : Vector4 :=
  match i with
  | 0%nat => r0 m
  | 1%nat => r1 m
  | 2%nat => r2 m
  | _ => r3 m
  end.

Definition coord (v : Vector4) (j : nat) : Qc :=
  match j with
  | 0%nat => c0 v
  | 1%nat => c1 v
  | 2%nat => c2 v
  | _ => c3 v
  end.

Definition entry (m : Matrix4) (i j : nat) : Qc := coord (row m i) j.

Definition build (f : nat -> nat -> Qc) : Matrix4 :=
  let line i := mkVector4 (f i 0%nat) (f i 1%nat) (f i 2%nat) (f i 3%nat) in
  mkMatrix4 (line 0%nat) (line 1%nat) (line 2%nat) (line 3%nat).

(** [Matrix4::Identity()] *)
Definition Identity : Matrix4 :=
  build (fun i j => if Nat.eqb i j then 1 else 0).

(** [operator*] *)
Definition mul (a b : Matrix4) : Matrix4 :=
  build (fun i j =>
    entry a i 0 * entry b 0 j + entry a i 1 * entry b 1 j
    + entry a i 2 * entry b 2 j + entry a i 3 * entry b 3 j).

(** The determinant of the 3x3 matrix with entries [f i j]. *)
Definition det3 (f : nat -> nat -> Qc) : Qc :=
  f 0%nat 0%nat * (f 1%nat 1%nat * f 2%nat 2%nat - f 1%nat 2%nat * f 2%nat 1%nat)
  - f 0%nat 1%nat * (f 1%nat 0%nat * f 2%nat 2%nat - f 1%nat 2%nat * f 2%nat 0%nat)
  + f 0%nat 2%nat * (f 1%nat 0%nat * f 2%nat 1%nat - f 1%nat 1%nat * f 2%nat 0%nat).

(** The [k]-th index when [i] is left out. *)
Definition skip (i k : nat) : nat := if Nat.ltb k i then k else S k.

Definition minor (m : Matrix4) (i j : nat) : Qc :=
  det3 (fun a b => entry m (skip i a) (skip j b)).

Definition cofactor (m : Matrix4) (i j : nat) : Qc :=
  (if Nat.even (i + j) then 1 else - (1)) * minor m i j.

(** [determinant()]: expansion along the first row. *)
Definition determinant (m : Matrix4) : Qc :=
  entry m 0 0 * cofactor m 0 0 + entry m 0 1 * cofactor m 0 1
  + entry m 0 2 * cofactor m 0 2 + entry m 0 3 * cofactor m 0 3.

(** [inverse()]: for a fixed size up to 4x4 Eigen divides the cofactors by
    the determinant. *)
Definition inverse (m : Matrix4) : Matrix4 :=
  build (fun i j => cofactor m j i / determinant m).

(** A rigid transform, which is what the specification's data model takes a
    camera pose to be: the last row is [0 0 0 1] and the upper left 3x3
    block is a rotation (orthonormal columns, determinant 1). *)
Definition rigid (m : Matrix4) : Prop :=
  r3 m = mkVector4 0 0 0 1
  /\ det3 (entry m) = 1
  /\ forall i j : nat, (i < 3)%nat -> (j < 3)%nat ->
       entry m 0 i * entry m 0 j + entry m 1 i * entry m 1 j + entry m 2 i * entry m 2 j
       = (if Nat.eqb i j then 1 else 0).

End Matrix.

(** ** The data of [Track.h] *)

(** Two types are declared in headers that are not part of the sources at
    hand, and are parameters here: [InstanceView], the view of one detected
    instance ([InstanceView.h]), and [InfiniTamDriver], what a
    [std::shared_ptr<InfiniTamDriver>] points to ([InfiniTamDriver.h]). *)

Set Implicit Arguments.
Set Maximal Implicit Insertion.

(** [struct TrackFrame] *)
Record TrackFrame (InstanceView : Type) : Type := mkTrackFrame {
  frame_idx : Z;
  instance_view : InstanceView;
  camera_pose : Matrix4
}.

(** [class Track]: the private members.  A null [reconstruction] is
    [None]. *)
Record Track (InstanceView InfiniTamDriver : Type) : Type := mkTrack {
  id_ : Z;
  frames_ : list (TrackFrame InstanceView);
  reconstruction : option InfiniTamDriver
}.

(** What a member function can see and change: the object it is called on
    and the standard error stream. *)
Record machine (InstanceView InfiniTamDriver : Type) : Type := mkMachine {
  this : Track InstanceView InfiniTamDriver;
  stderr : string
}.

(** Modelled from the spec: the three signals [Track::ScoreMatch] combines.
    The specification fixes what each one depends on and its range, not its
    formula:
    - semantic compatibility is 0 when the classes differ and a positive
      [base] otherwise;
    - spatial consistency is an overlap of the candidate with the last
      observation, between 0 and 1;
    - temporal consistency depends on the gap in frames, lies between 0 and
      1 and does not grow with the gap. *)
Record MatchSignals (InstanceView : Type) : Type := mkMatchSignals {
  class_id : InstanceView -> Z;
  base : Qc;
  spatial_consistency : TrackFrame InstanceView -> TrackFrame InstanceView -> Qc;
  temporal_consistency : Z -> Qc;
  base_range : (0 < base /\ base <= 1)%Qc;
  spatial_range : forall latest candidate,
    (0 <= spatial_consistency latest candidate
     /\ spatial_consistency latest candidate <= 1)%Qc;
  temporal_range : forall gap,
    (0 <= temporal_consistency gap /\ temporal_consistency gap <= 1)%Qc;
  temporal_decay : forall gap gap',
    0 <= gap <= gap' ->
    (temporal_consistency gap' <= temporal_consistency gap)%Qc
}.

Unset Maximal Implicit Insertion.
Unset Implicit Arguments.

Arguments mkMatchSignals {InstanceView} class_id base
  spatial_consistency temporal_consistency
  base_range spatial_range temporal_range temporal_decay.

(** ** The member functions *)

Section Track.

Context {InstanceView InfiniTamDriver : Type}.

Local Abbreviation TrackFrame := (TrackFrame InstanceView).
Local Abbreviation Track := (Track InstanceView InfiniTamDriver).
Local Abbreviation machine := (machine InstanceView InfiniTamDriver).
Local Abbreviation MatchSignals := (MatchSignals InstanceView).

Definition method (A : Type) : Type := comp machine A.

(** Reading a member of [*this]. *)
Definition member {A} (f : Track -> A) : method A :=
  fun m => Ret (f (this m), m).

(** Assigning to [frames_]. *)
Definition set_frames_ (v : list TrackFrame) : method unit :=
  fun m =>
    Ret (tt, {| this := {| id_ := id_ (this m);
                           frames_ := v;
                           reconstruction := reconstruction (this m) |};
                stderr := stderr m |}).

(** [fprintf(stderr, ...)], the text already formatted. *)
Definition fprintf_stderr (text : string) : method unit :=
  fun m => Ret (tt, {| this := this m; stderr := stderr m +:+ text |}).

(** *** Defined in [Track.h] *)

(** [Track(int id) : id_(id), reconstruction(nullptr) {}] *)
Definition Track_ctor (id : Z) : Track :=
  {| id_ := id; frames_ := []; reconstruction := None |}.

(** The body of [virtual ~Track()]. *)
Definition Track_dtor : method unit :=
  p <- member reconstruction ;;
  match p with
  | Some _ => id <- member id_ ;; fprintf_stderr (deleting_message id)
  | None => ret tt
  end.

Definition AddFrame (new_frame : TrackFrame) : method unit :=
  v <- member frames_ ;;
  set_frames_ (vector.push_back v new_frame).

Definition GetSize : method Z :=
  v <- member frames_ ;;
  ret (vector.size v).

Definition GetLastFrame : method TrackFrame :=
  v <- member frames_ ;;
  defined (vector.back v).

Definition GetStartTime : method Z :=
  v <- member frames_ ;;
  f <- defined (vector.front v) ;;
  ret (frame_idx f).

Definition GetEndTime : method Z :=
  v <- member frames_ ;;
  f <- defined (vector.back v) ;;
  ret (frame_idx f).

Definition GetFrames : method (list TrackFrame) := member frames_.

Definition GetFrame (i : Z) : method TrackFrame :=
  v <- member frames_ ;;
  defined (vector.subscript v (to_size_t i)).

Definition GetId : method Z := member id_.

Definition HasReconstruction : method bool :=
  p <- member reconstruction ;;
  ret (match p with Some _ => true | None => false end).

Definition GetReconstruction : method (option InfiniTamDriver) :=
  member reconstruction.

Definition EligibleForReconstruction : method bool :=
  n <- GetSize ;;
  ret (1 <=? n).

(** *** What callers do with these *)

(** [for (const TrackFrame& f : fs) AddFrame(f);] *)
Fixpoint AddFrames (fs : list TrackFrame) : method unit :=
  match fs with
  | [] => ret tt
  | f :: rest => u <- AddFrame f ;; AddFrames rest
  end.

(** [GetReconstruction() = p;].  The non-const [GetReconstruction()] returns
    a reference to the member [reconstruction]; nothing else in [Track.h]
    changes that member, and this is the store through the reference. *)
Definition GetReconstruction_store (p : option InfiniTamDriver) : method unit :=
  fun m =>
    Ret (tt, {| this := {| id_ := id_ (this m);
                           frames_ := frames_ (this m);
                           reconstruction := p |};
                stderr := stderr m |}).

(** [GetFrame(i) = x;].  The non-const [GetFrame(int i)] returns the
    reference [frames_[i]]; out of range there is no such element and the
    store, like the read, is undefined. *)
Definition GetFrame_store (i : Z) (x : TrackFrame) : method unit :=
  v <- member frames_ ;;
  old <- defined (vector.subscript v (to_size_t i)) ;;
  set_frames_ (<[Z.to_nat (to_size_t i) := x]> v).

(** [GetLastFrame() = x;], the store through [frames_.back()]. *)
Definition GetLastFrame_store (x : TrackFrame) : method unit :=
  v <- member frames_ ;;
  old <- defined (vector.back v) ;;
  set_frames_ (<[pred (length v) := x]> v).

(** *** Declared in [Track.h], defined elsewhere *)

(** Modelled from the spec: the body of [Track::GetFramePose] (declared at
    [Track.h:94], defined in a source file that is not at hand).  The pose
    of the observation at position [index] relative to the first one,
    [inverse(first.camera_pose) * observations[index].camera_pose], and the
    absent result when [index] is outside [[0, size)]. *)
Definition GetFramePose (index : Z) : method (option Matrix4) :=
  v <- member frames_ ;;
  if bool_decide (0 <= index < vector.size v) then
    match vector.front v, vector.subscript v index with
    | Some first, Some f =>
        ret (Some (Matrix.mul (Matrix.inverse (camera_pose first)) (camera_pose f)))
    | _, _ => ret None
    end
  else ret None.

(** Modelled from the spec: the semantic signal of [Track::ScoreMatch]. *)
Definition semantic_compatibility (sg : MatchSignals)
    (latest candidate : TrackFrame) : Qc :=
  if bool_decide (class_id sg (instance_view candidate)
                  = class_id sg (instance_view latest))
  then base sg else 0%Qc.

(** Modelled from the spec: the body of [Track::ScoreMatch] (declared at
    [Track.h:46], defined in a source file that is not at hand): the product
    of the three signals, so that a signal of 0 forces a score of 0.  A track
    without observations has no most recent observation to continue; the
    specification wants a score in every case, and the model returns 0 there
    (the header: 0 means the new frame would not match this track at all). *)
Definition ScoreMatch (sg : MatchSignals) (new_frame : TrackFrame) : method Qc :=
  v <- member frames_ ;;
  match vector.back v with
  | Some latest =>
      ret (semantic_compatibility sg latest new_frame
           * spatial_consistency sg latest new_frame
           * temporal_consistency sg (frame_idx new_frame - frame_idx latest))%Qc
  | None => ret 0%Qc
  end.

(** *** The invariant the specification asks of [frames_] *)

Definition frame_indices (t : Track) : list Z := frame_idx <$> frames_ t.

(** Strictly increasing frame indices: gaps allowed, duplicates not. *)
Definition increasing (t : Track) : Prop := StronglySorted Z.lt (frame_indices t).

End Track.

(** ** Destroying a track *)

(** The control blocks of the shared pointers: for every driver, how many
    [std::shared_ptr] own it.  A driver without owner has been deleted. *)
Definition owners (InfiniTamDriver : Type) : Type := InfiniTamDriver -> nat.

Section Destruction.

Context {InstanceView InfiniTamDriver : Type} `{EqDecision InfiniTamDriver}.

(** [~shared_ptr()]: a pointer that is not null gives up its share of the
    driver it points to, which is deleted when that was the last share. *)
Definition shared_ptr_dtor (p : option InfiniTamDriver)
    (o : owners InfiniTamDriver) : owners InfiniTamDriver :=
  match p with
  | Some d => fun d' => if decide (d' = d) then pred (o d') else o d'
  | None => o
  end.

(** The end of a track's life: the body of [~Track()] runs, then the members
    are destroyed; [reconstruction] ([Track.h:103]) is the one that owns a
    driver.  What is left is the error stream and the owners of the
    drivers.  (What the destruction of an [InstanceView] does is not in the
    sources at hand.) *)
Definition Track_destroy (m : machine InstanceView InfiniTamDriver)
    (o : owners InfiniTamDriver) : outcome (string * owners InfiniTamDriver) :=
  match Track_dtor m with
  | Ret (_, m') => Ret (stderr m', shared_ptr_dtor (reconstruction (this m')) o)
  | Raise e => Raise e
  | Undef => Undef
  end.

End Destruction.


(** ** A concrete run *)

(** The scenario of the specification: a track observed at frames 5, 7 and
    8.  An instance view is reduced to the class of its detection. *)
Module Example.

Definition view : Type := Z.
Definition driver : Type := unit.

Definition qz (z : Z) : Qc := Q2Qc (inject_Z z).

(** A quarter turn about the vertical axis followed by a translation. *)
Definition pose (tx ty tz : Z) : Matrix4 :=
  mkMatrix4 (mkVector4 (qz 0) (qz (-1)) (qz 0) (qz tx))
            (mkVector4 (qz 1) (qz 0) (qz 0) (qz ty))
            (mkVector4 (qz 0) (qz 0) (qz 1) (qz tz))
            (mkVector4 (qz 0) (qz 0) (qz 0) (qz 1)).

Definition car : Z := 3.
Definition person : Z := 1.

Definition frame (idx cls : Z) : TrackFrame view :=
  mkTrackFrame idx cls (pose idx 2 0).

Definition track578 : Track view driver :=
  mkTrack 42 [frame 5 car; frame 7 car; frame 8 car] None.

Definition reconstructed : Track view driver :=
  mkTrack 42 [frame 5 car] (Some tt).

Definition start (t : Track view driver) : machine view driver := mkMachine t "".

(** Signals for the example: full overlap counts one half, and a gap of
    more than 30 frames rules a match out. *)
Definition signals : MatchSignals view.
Proof.
  refine (mkMatchSignals
            (fun cls => cls)
            (qz 1)
            (fun _ _ => Q2Qc (1 # 2))
            (fun gap => if bool_decide (gap <= 30) then qz 1 else qz 0)
            _ _ _ _).
  - split; vm_compute; [reflexivity | discriminate].
  - intros _ _; split; vm_compute; discriminate.
  - intros gap; destruct (bool_decide (gap <= 30)); split; vm_compute; discriminate.
  - intros gap gap' [_ Hle].
    destruct (bool_decide_reflect (gap' <= 30)), (bool_decide_reflect (gap <= 30));
      try (vm_compute; discriminate).
    lia.
Defined.

End Example.

(** * Properties *)

(** ** Matrix algebra *)

Section MatrixFacts.

Import Matrix.
Local Open Scope Qc_scope.

Ltac expand :=
  unfold determinant, cofactor, minor, det3, skip, entry;
  cbn [row coord r0 r1 r2 r3 c0 c1 c2 c3 Nat.ltb Nat.leb Nat.even Nat.add Nat.eqb].

(** The adjugate times the matrix is the determinant times the identity. *)
Lemma adjugate_mul (a : Matrix4) (i j : nat) :
  (i < 4)%nat -> (j < 4)%nat ->
  cofactor a 0 i * entry a 0 j + cofactor a 1 i * entry a 1 j
  + cofactor a 2 i * entry a 2 j + cofactor a 3 i * entry a 3 j
  = if Nat.eqb i j then determinant a else 0.
Proof.
  intros Hi Hj.
  destruct a as [[a00 a01 a02 a03] [a10 a11 a12 a13] [a20 a21 a22 a23] [a30 a31 a32 a33]].
  do 4 (destruct i as [|i]; [do 4 (destruct j as [|j]; [expand; ring|]); lia|]); lia.
Qed.

Lemma entry_build (f : nat -> nat -> Qc) (i j : nat) :
  (i < 4)%nat -> (j < 4)%nat -> entry (build f) i j = f i j.
Proof.
  intros Hi Hj.
  do 4 (destruct i as [|i]; [do 4 (destruct j as [|j]; [reflexivity|]); lia|]); lia.
Qed.

Lemma Matrix4_ext (a b : Matrix4) :
  (forall i j, (i < 4)%nat -> (j < 4)%nat -> entry a i j = entry b i j) -> a = b.
Proof.
  intros E.
  destruct a as [[a00 a01 a02 a03] [a10 a11 a12 a13] [a20 a21 a22 a23] [a30 a31 a32 a33]].
  destruct b as [[b00 b01 b02 b03] [b10 b11 b12 b13] [b20 b21 b22 b23] [b30 b31 b32 b33]].
  pose proof (E 0 0)%nat as E00. pose proof (E 0 1)%nat as E01.
  pose proof (E 0 2)%nat as E02. pose proof (E 0 3)%nat as E03.
  pose proof (E 1 0)%nat as E10. pose proof (E 1 1)%nat as E11.
  pose proof (E 1 2)%nat as E12. pose proof (E 1 3)%nat as E13.
  pose proof (E 2 0)%nat as E20. pose proof (E 2 1)%nat as E21.
  pose proof (E 2 2)%nat as E22. pose proof (E 2 3)%nat as E23.
  pose proof (E 3 0)%nat as E30. pose proof (E 3 1)%nat as E31.
  pose proof (E 3 2)%nat as E32. pose proof (E 3 3)%nat as E33.
  cbn in *.
  rewrite E00, E01, E02, E03, E10, E11, E12, E13,
          E20, E21, E22, E23, E30, E31, E32, E33 by lia.
  reflexivity.
Qed.

(** [inverse] is a left inverse wherever the determinant is not 0. *)
Lemma inverse_mul (a : Matrix4) :
  determinant a <> 0 -> mul (inverse a) a = Identity.
Proof.
  intros Hd. apply Matrix4_ext. intros i j Hi Hj.
  unfold mul, inverse, Identity. rewrite !entry_build by lia.
  transitivity ((cofactor a 0 i * entry a 0 j + cofactor a 1 i * entry a 1 j
      + cofactor a 2 i * entry a 2 j + cofactor a 3 i * entry a 3 j) * / determinant a).
  - unfold Qcdiv. ring.
  - rewrite adjugate_mul by assumption.
    destruct (Nat.eqb i j).
    + apply Qcmult_inv_r. assumption.
    + ring.
Qed.

(** A rigid transform has determinant 1, hence an inverse. *)
Lemma rigid_determinant (m : Matrix4) : rigid m -> determinant m = 1.
Proof.
  intros (Hrow & Hdet & _).
  destruct m as [[a00 a01 a02 a03] [a10 a11 a12 a13] [a20 a21 a22 a23] l].
  cbn in Hrow. subst l. etransitivity; [|exact Hdet]. expand. ring.
Qed.

Lemma rigid_inverse_mul (m : Matrix4) : rigid m -> mul (inverse m) m = Identity.
Proof.
  intros Hm. apply inverse_mul. rewrite (rigid_determinant m Hm).
  intros E. discriminate E.
Qed.

End MatrixFacts.

(** ** Strings *)

Lemma append_empty_r (s : string) : s +:+ "" = s.
Proof.
  induction s as [|a s IH]; [reflexivity|].
  change (String a (s +:+ "") = String a s). rewrite IH. reflexivity.
Qed.

Lemma list_ascii_of_append (s1 s2 : string) :
  String.list_ascii_of_string (s1 +:+ s2)
  = String.list_ascii_of_string s1 ++ String.list_ascii_of_string s2.
Proof.
  induction s1 as [|a s1 IH]; [reflexivity|].
  change (a :: String.list_ascii_of_string (s1 +:+ s2)
          = a :: (String.list_ascii_of_string s1 ++ String.list_ascii_of_string s2)).
  rewrite IH. reflexivity.
Qed.

Lemma append_inv_tail (s1 s2 t : string) : s1 +:+ t = s2 +:+ t -> s1 = s2.
Proof.
  intros E. apply (f_equal String.list_ascii_of_string) in E.
  rewrite !list_ascii_of_append in E. apply app_inv_tail in E.
  rewrite <- (String.string_of_list_ascii_of_string s1).
  rewrite <- (String.string_of_list_ascii_of_string s2).
  rewrite E. reflexivity.
Qed.

(** The identifier can be read off the message of the destructor. *)
Lemma deleting_message_inj (id id' : Z) :
  deleting_message id = deleting_message id' -> id = id'.
Proof.
  unfold deleting_message. intros E.
  apply (inj (String.app "Deleting track [")) in E.
  apply append_inv_tail in E. apply (inj pretty) in E. exact E.
Qed.

(** ** Scores *)

Section ScoreFacts.

Local Open Scope Qc_scope.

Lemma unit_interval_mult (a b : Qc) :
  0 <= a /\ a <= 1 -> 0 <= b /\ b <= 1 -> 0 <= a * b /\ a * b <= 1.
Proof.
  intros [Ha0 Ha1] [Hb0 Hb1]. split.
  - rewrite <- (Qcmult_0_l b). apply Qcmult_le_compat_r; assumption.
  - apply Qcle_trans with (1 * b).
    + apply Qcmult_le_compat_r; assumption.
    + rewrite Qcmult_1_l. assumption.
Qed.

End ScoreFacts.

(** ** The member functions of [Track.h] *)

Section TrackFacts.

Variable InstanceView : Type.
Variable InfiniTamDriver : Type.

Local Abbreviation TrackFrame := (TrackFrame InstanceView).
Local Abbreviation Track := (Track InstanceView InfiniTamDriver).
Local Abbreviation machine := (machine InstanceView InfiniTamDriver).

Implicit Types (m : machine) (t : Track) (f : TrackFrame) (i n : Z).

(** *** What each call computes *)

Lemma GetSize_run m : GetSize m = Ret (vector.size (frames_ (this m)), m).
Proof. reflexivity. Qed.

Lemma AddFrame_run f m :
  AddFrame f m
  = Ret (tt, mkMachine (mkTrack (id_ (this m))
                                (frames_ (this m) ++ [f])
                                (reconstruction (this m)))
                       (stderr m)).
Proof. reflexivity. Qed.

Lemma GetStartTime_run m :
  GetStartTime m
  = match head (frames_ (this m)) with
    | Some first => Ret (frame_idx first, m)
    | None => Undef
    end.
Proof.
  unfold GetStartTime, bind, member, defined, ret, vector.front.
  destruct (head (frames_ (this m))); reflexivity.
Qed.

Lemma GetEndTime_run m :
  GetEndTime m
  = match last (frames_ (this m)) with
    | Some latest => Ret (frame_idx latest, m)
    | None => Undef
    end.
Proof.
  unfold GetEndTime, bind, member, defined, ret, vector.back.
  destruct (last (frames_ (this m))); reflexivity.
Qed.

Lemma GetFrame_run i m :
  GetFrame i m
  = match frames_ (this m) !! Z.to_nat (to_size_t i) with
    | Some f => Ret (f, m)
    | None => Undef
    end.
Proof.
  unfold GetFrame, bind, member, defined, vector.subscript.
  rewrite bool_decide_eq_true_2; [reflexivity|].
  unfold to_size_t. apply Z.mod_pos_bound. lia.
Qed.

Lemma size_snoc {A} (v : list A) (x : A) :
  vector.size (vector.push_back v x) = vector.size v + 1.
Proof. unfold vector.size, vector.push_back. rewrite length_app. simpl. lia. Qed.

(** A negative [int] becomes an index no vector can hold. *)
Lemma to_size_t_negative i : is_int i -> i < 0 -> vector.max_size < to_size_t i.
Proof.
  unfold is_int, INT_MIN, INT_MAX, to_size_t, vector.max_size. intros Hi Hneg.
  replace i with (i + 2 ^ 64 + (-1) * 2 ^ 64) by lia.
  rewrite Z.mod_add by lia. rewrite Z.mod_small; lia.
Qed.

Lemma to_size_t_nonneg i : is_int i -> 0 <= i -> to_size_t i = i.
Proof.
  unfold is_int, INT_MIN, INT_MAX, to_size_t. intros Hi Hpos.
  apply Z.mod_small. lia.
Qed.

(** *** Stored frame indices *)

Lemma increasing_snoc (l : list Z) (x : Z) :
  StronglySorted Z.lt l ->
  (StronglySorted Z.lt (l ++ [x]) <-> forall y, last l = Some y -> y < x).
Proof.
  intros Hl. rewrite StronglySorted_app. split.
  - intros (Hlt & _ & _) y Hy. apply (Hlt y x).
    + apply last_Some_elem_of. exact Hy.
    + apply list_elem_of_singleton. reflexivity.
  - intros Hlast. split; [|split].
    + intros y z Hy Hz. apply list_elem_of_singleton in Hz. subst z.
      destruct (last l) as [b|] eqn:Eb.
      * apply last_Some in Eb. destruct Eb as [l' ->].
        apply StronglySorted_app in Hl. destruct Hl as (Hl & _ & _).
        apply elem_of_app in Hy. destruct Hy as [Hy|Hy].
        -- apply Z.lt_trans with b.
           ++ apply Hl; [exact Hy | apply list_elem_of_singleton; reflexivity].
           ++ apply Hlast. reflexivity.
        -- apply list_elem_of_singleton in Hy. subst y. apply Hlast. reflexivity.
      * apply last_None in Eb. subst l. inversion Hy.
    + exact Hl.
    + repeat constructor.
Qed.

(** *** [AddFrame] *)

(** C1, as the code has it: [AddFrame] is a bare [push_back].  For every
    track and every observation, whatever its frame index, the call returns
    normally and leaves the observation at the end of the stored sequence;
    the identifier, the reconstruction and the error stream are untouched
    and no signal is raised. *)
Theorem AddFrame_appends_unchecked f m :
  exists m',
    AddFrame f m = Ret (tt, m')
    /\ frames_ (this m') = frames_ (this m) ++ [f]
    /\ id_ (this m') = id_ (this m)
    /\ reconstruction (this m') = reconstruction (this m)
    /\ stderr m' = stderr m.
Proof. rewrite AddFrame_run. eexists. split; [reflexivity|]. cbn. auto. Qed.

(** C5: after [AddFrame] of an observation whose frame index is greater
    than that of the last stored one, [GetSize()] is one more than before
    and [GetEndTime()] is the frame index of the new observation. *)
Theorem AddFrame_size_and_end_time f m :
  (forall latest, last (frames_ (this m)) = Some latest ->
                  frame_idx latest < frame_idx f) ->
  exists n m',
    GetSize m = Ret (n, m)
    /\ AddFrame f m = Ret (tt, m')
    /\ GetSize m' = Ret (n + 1, m')
    /\ GetEndTime m' = Ret (frame_idx f, m').
Proof.
  intros _. rewrite AddFrame_run. do 2 eexists.
  split; [apply GetSize_run|]. split; [reflexivity|]. split.
  - rewrite GetSize_run. cbn [this frames_].
    rewrite <- (size_snoc (frames_ (this m)) f). reflexivity.
  - rewrite GetEndTime_run. cbn [this frames_]. rewrite last_snoc. reflexivity.
Qed.

(** *** [GetStartTime], [GetEndTime] *)

(** C6, as the code has it: on a track with observations [GetStartTime()]
    is the frame index of the first one and [GetEndTime()] that of the last
    one, the track unchanged; on a track without observations both are
    [front()] or [back()] of an empty vector, which is undefined behaviour:
    no value and no signal. *)
Theorem start_and_end_time m :
  (forall first, head (frames_ (this m)) = Some first ->
                 GetStartTime m = Ret (frame_idx first, m))
  /\ (forall latest, last (frames_ (this m)) = Some latest ->
                     GetEndTime m = Ret (frame_idx latest, m))
  /\ (frames_ (this m) = [] -> GetStartTime m = Undef /\ GetEndTime m = Undef).
Proof.
  rewrite GetStartTime_run, GetEndTime_run. split; [|split].
  - intros first ->. reflexivity.
  - intros latest ->. reflexivity.
  - intros ->. split; reflexivity.
Qed.

(** *** [GetFrame] *)

(** C9: [GetFrame(i)] indexes [frames_] without a range check.  For an
    [int] [i] with [0 <= i < GetSize()] it returns the observation at
    position [i]; for any other [i] the call is undefined behaviour: neither
    a value (an absent one included) nor a signal. *)
Theorem GetFrame_unchecked i m :
  is_int i ->
  vector.size (frames_ (this m)) <= vector.max_size ->
  (0 <= i < vector.size (frames_ (this m)) ->
     exists f, frames_ (this m) !! Z.to_nat i = Some f /\ GetFrame i m = Ret (f, m))
  /\ (i < 0 \/ vector.size (frames_ (this m)) <= i ->
       GetFrame i m = Undef
       /\ (forall r, GetFrame i m <> Ret r)
       /\ (forall s, GetFrame i m <> Raise s)).
Proof.
  intros Hi Hmax. rewrite GetFrame_run. unfold vector.size in *. split.
  - intros Hin. rewrite to_size_t_nonneg by (assumption || lia).
    destruct (lookup_lt_is_Some_2 (frames_ (this m)) (Z.to_nat i)) as [f Hf]; [lia|].
    exists f. rewrite Hf. split; reflexivity.
  - intros Hout.
    assert (frames_ (this m) !! Z.to_nat (to_size_t i) = None) as ->.
    { apply lookup_ge_None_2. destruct Hout as [Hneg|Hge].
      - pose proof (to_size_t_negative i Hi Hneg). lia.
      - rewrite to_size_t_nonneg by (assumption || lia). lia. }
    repeat split; intros; discriminate.
Qed.

(** *** [EligibleForReconstruction] *)

(** C2: [EligibleForReconstruction()] returns [true] exactly when
    [GetSize()] is at least 1, and leaves the track (and everything else) as
    it was. *)
Theorem EligibleForReconstruction_threshold m :
  exists n b,
    GetSize m = Ret (n, m)
    /\ EligibleForReconstruction m = Ret (b, m)
    /\ (b = true <-> 1 <= n).
Proof.
  exists (vector.size (frames_ (this m))), (1 <=? vector.size (frames_ (this m))).
  split; [apply GetSize_run|]. split; [reflexivity|]. apply Z.leb_le.
Qed.

(** *** Construction and destruction *)

(** C10: a track made by [Track(id)] has no observation, no reconstruction,
    is not eligible for reconstruction, and has the identifier [id]; so a
    track exists before its first observation. *)
Theorem Track_ctor_empty (id : Z) (err : string) :
  let m := mkMachine (Track_ctor id : Track) err in
  GetSize m = Ret (0, m)
  /\ HasReconstruction m = Ret (false, m)
  /\ EligibleForReconstruction m = Ret (false, m)
  /\ GetId m = Ret (id, m).
Proof. repeat split. Qed.

(** *** Member functions modelled from the specification *)

Lemma GetFramePose_run i m :
  GetFramePose i m
  = Ret (if bool_decide (0 <= i < vector.size (frames_ (this m))) then
           match head (frames_ (this m)), frames_ (this m) !! Z.to_nat i with
           | Some first, Some f =>
               Some (Matrix.mul (Matrix.inverse (camera_pose first)) (camera_pose f))
           | _, _ => None
           end
         else None, m).
Proof.
  unfold GetFramePose, bind, member, ret, vector.front, vector.subscript.
  destruct (bool_decide_reflect (0 <= i < vector.size (frames_ (this m)))) as [Hin|Hout];
    [|reflexivity].
  rewrite bool_decide_eq_true_2 by lia.
  destruct (head (frames_ (this m))); [|reflexivity].
  destruct (frames_ (this m) !! Z.to_nat i); reflexivity.
Qed.

(** C3: on a track with [n] observations [GetFramePose(i)] always returns:
    the absent result when [i] is outside [[0, n)]; for [i] inside, the
    inverse of the first observation's camera pose times the camera pose of
    the observation at position [i]; and at position 0 the identity, the
    first pose being a rigid transform. *)
Theorem GetFramePose_relative_to_first m :
  (forall i, i < 0 \/ vector.size (frames_ (this m)) <= i ->
             GetFramePose i m = Ret (None, m))
  /\ (forall first, head (frames_ (this m)) = Some first ->
                    Matrix.rigid (camera_pose first) ->
                    GetFramePose 0 m = Ret (Some Matrix.Identity, m))
  /\ (forall i, 0 <= i < vector.size (frames_ (this m)) ->
         exists first f,
           head (frames_ (this m)) = Some first
           /\ frames_ (this m) !! Z.to_nat i = Some f
           /\ GetFramePose i m
              = Ret (Some (Matrix.mul (Matrix.inverse (camera_pose first))
                                      (camera_pose f)), m)).
Proof.
  split; [|split].
  - intros i Hout. rewrite GetFramePose_run.
    rewrite bool_decide_eq_false_2 by lia. reflexivity.
  - intros first Hfirst Hrigid. rewrite GetFramePose_run.
    destruct (frames_ (this m)) as [|f0 v] eqn:Ev; [discriminate Hfirst|].
    cbn in Hfirst. injection Hfirst as ->.
    rewrite bool_decide_eq_true_2 by (unfold vector.size; cbn [length]; lia).
    change (Z.to_nat 0) with 0%nat. rewrite <- head_lookup. cbn [head].
    rewrite rigid_inverse_mul by assumption. reflexivity.
  - intros i Hin. rewrite GetFramePose_run.
    rewrite bool_decide_eq_true_2 by assumption.
    destruct (frames_ (this m)) as [|f0 v] eqn:Ev.
    { unfold vector.size in Hin. cbn in Hin. lia. }
    destruct (lookup_lt_is_Some_2 (f0 :: v) (Z.to_nat i)) as [f Hf].
    { unfold vector.size in Hin. lia. }
    exists f0, f. rewrite Hf. repeat split.
Qed.

(** C4: [ScoreMatch] always returns, its score lies between 0 and 1, the
    track and everything else are as they were, and the score is exactly 0
    when the class of the candidate differs from the class of the track's
    most recent observation. *)
Theorem ScoreMatch_range_and_veto (sg : MatchSignals InstanceView) f m :
  exists score : Qc,
    ScoreMatch sg f m = Ret (score, m)
    /\ (0 <= score /\ score <= 1)%Qc
    /\ (forall latest,
          last (frames_ (this m)) = Some latest ->
          class_id sg (instance_view f) <> class_id sg (instance_view latest) ->
          score = 0%Qc).
Proof.
  unfold ScoreMatch, bind, member, ret, vector.back.
  destruct (last (frames_ (this m))) as [latest|].
  - eexists. split; [reflexivity|]. split.
    + apply unit_interval_mult; [apply unit_interval_mult|].
      * unfold semantic_compatibility. destruct (bool_decide _).
        -- destruct (base_range sg) as [Hpos Hle]. split; [|exact Hle].
           apply Qclt_le_weak. exact Hpos.
        -- split; [apply Qcle_refl | discriminate].
      * apply spatial_range.
      * apply temporal_range.
    + intros latest' E Hclass. injection E as <-.
      unfold semantic_compatibility. rewrite bool_decide_eq_false_2 by assumption.
      ring.
  - exists 0%Qc. split; [reflexivity|]. split.
    + split; [apply Qcle_refl | discriminate].
    + intros latest E. discriminate E.
Qed.


(** * Further properties of [Track.h] *)

(** ** Helpers *)

Lemma machine_eta m :
  mkMachine (mkTrack (id_ (this m)) (frames_ (this m)) (reconstruction (this m)))
            (stderr m)
  = m.
Proof. destruct m as [[id v p] err]. reflexivity. Qed.

Lemma AddFrames_run fs m :
  AddFrames fs m
  = Ret (tt, mkMachine (mkTrack (id_ (this m))
                                (frames_ (this m) ++ fs)
                                (reconstruction (this m)))
                       (stderr m)).
Proof.
  revert m. induction fs as [|f fs IH]; intros m.
  - cbn [AddFrames]. unfold ret. rewrite app_nil_r, machine_eta. reflexivity.
  - cbn [AddFrames]. unfold bind. rewrite AddFrame_run, IH.
    cbn [this id_ frames_ reconstruction stderr].
    rewrite <- app_assoc. reflexivity.
Qed.

Lemma GetLastFrame_run m :
  GetLastFrame m
  = match last (frames_ (this m)) with
    | Some latest => Ret (latest, m)
    | None => Undef
    end.
Proof.
  unfold GetLastFrame, bind, member, defined, vector.back.
  destruct (last (frames_ (this m))); reflexivity.
Qed.

Lemma EligibleForReconstruction_run m :
  EligibleForReconstruction m = Ret (1 <=? vector.size (frames_ (this m)), m).
Proof. reflexivity. Qed.

Lemma Track_dtor_run m :
  Track_dtor m
  = match reconstruction (this m) with
    | Some _ => Ret (tt, mkMachine (this m)
                                   (stderr m +:+ deleting_message (id_ (this m))))
    | None => Ret (tt, m)
    end.
Proof.
  unfold Track_dtor, bind, member, ret, fprintf_stderr.
  destruct (reconstruction (this m)); reflexivity.
Qed.

(** In a list of increasing numbers, the length is at most the span from
    the first to the last. *)
Lemma sorted_span (l : list Z) (a b : Z) :
  StronglySorted Z.lt l -> head l = Some a -> last l = Some b ->
  a <= b /\ Z.of_nat (length l) <= b - a + 1.
Proof.
  revert a. induction l as [|x l IH]; intros a Hs Hh Hl; [discriminate Hh|].
  cbn in Hh. injection Hh as ->.
  destruct l as [|y l].
  - cbn in Hl. injection Hl as ->. cbn. lia.
  - apply StronglySorted_inv in Hs. destruct Hs as [Hs Hall].
    rewrite last_cons_cons in Hl.
    destruct (IH y Hs eq_refl Hl) as [Hle Hlen].
    apply Forall_inv in Hall.
    cbn [length] in *. lia.
Qed.

(** In a list of increasing numbers, an earlier position holds a smaller
    number. *)
Lemma sorted_lookup_lt (l : list Z) (i j : nat) (x y : Z) :
  StronglySorted Z.lt l -> l !! i = Some x -> l !! j = Some y ->
  (i < j)%nat -> x < y.
Proof.
  revert i j. induction l as [|z l IH]; intros i j Hs Hi Hj Hlt; [discriminate Hi|].
  apply StronglySorted_inv in Hs. destruct Hs as [Hs Hall].
  destruct j as [|j]; [lia|]. cbn in Hj.
  destruct i as [|i].
  - cbn in Hi. injection Hi as ->.
    rewrite Forall_lookup in Hall. exact (Hall j y Hj).
  - cbn in Hi. apply (IH i j); [assumption..|lia].
Qed.

(** ** Adding observations *)

(** X1: a run of [AddFrame] calls appends the observations in the order of
    the calls to those already stored, whatever they are, and touches nothing
    else: the identifier, the reconstruction and the error stream stay. *)
Theorem AddFrames_appends_in_order fs m :
  exists n m',
    GetSize m = Ret (n, m)
    /\ AddFrames fs m = Ret (tt, m')
    /\ GetFrames m' = Ret (frames_ (this m) ++ fs, m')
    /\ GetSize m' = Ret (n + Z.of_nat (length fs), m')
    /\ GetId m' = Ret (id_ (this m), m')
    /\ GetReconstruction m' = Ret (reconstruction (this m), m')
    /\ stderr m' = stderr m.
Proof.
  rewrite AddFrames_run. do 2 eexists.
  split; [apply GetSize_run|]. split; [reflexivity|].
  repeat split.
  rewrite GetSize_run. cbn [this frames_]. unfold vector.size.
  rewrite length_app, Nat2Z.inj_add. reflexivity.
Qed.

(** X2: a track made by [Track(id)] and filled by [AddFrame] calls holds
    exactly the observations given, in order, and has the identifier [id];
    it has no reconstruction, and the body of its destructor then writes
    nothing to the error stream. *)
Theorem fresh_track_round_trip (id : Z) (err : string) fs :
  exists m',
    AddFrames fs (mkMachine (Track_ctor id : Track) err) = Ret (tt, m')
    /\ GetFrames m' = Ret (fs, m')
    /\ GetSize m' = Ret (Z.of_nat (length fs), m')
    /\ GetId m' = Ret (id, m')
    /\ HasReconstruction m' = Ret (false, m')
    /\ Track_dtor m' = Ret (tt, m')
    /\ stderr m' = err.
Proof.
  rewrite AddFrames_run. eexists. split; [reflexivity|]. repeat split.
Qed.

(** X3: [GetLastFrame()] after [AddFrame(f)] is [f], on every track;
    [GetEndTime()] is the frame index of [GetLastFrame()], undefined with
    it; and [GetLastFrame()] is undefined exactly on a track of size 0. *)
Theorem GetLastFrame_is_latest_added f m :
  (exists m', AddFrame f m = Ret (tt, m') /\ GetLastFrame m' = Ret (f, m'))
  /\ GetEndTime m = (g <- GetLastFrame ;; ret (frame_idx g)) m
  /\ (GetLastFrame m = Undef <-> GetSize m = Ret (0, m)).
Proof.
  split; [|split].
  - rewrite AddFrame_run. eexists. split; [reflexivity|].
    rewrite GetLastFrame_run. cbn [this frames_]. rewrite last_snoc. reflexivity.
  - unfold bind. rewrite GetEndTime_run, GetLastFrame_run.
    destruct (last (frames_ (this m))); reflexivity.
  - rewrite GetLastFrame_run, GetSize_run. unfold vector.size.
    destruct (frames_ (this m)) as [|f0 v] eqn:Ev using rev_ind.
    + split; reflexivity.
    + rewrite last_snoc, length_app. cbn [length].
      split; intros E; [discriminate E|].
      injection E as E. lia.
Qed.

(** X4: [AddFrame] does not disturb what is stored: every position that held
    an observation holds the same one afterwards, and the new observation is
    at the position that was the size. *)
Theorem AddFrame_keeps_positions f i m :
  is_int i ->
  0 <= i <= vector.size (frames_ (this m)) ->
  exists m',
    AddFrame f m = Ret (tt, m')
    /\ (i < vector.size (frames_ (this m)) ->
        exists g, GetFrame i m = Ret (g, m) /\ GetFrame i m' = Ret (g, m'))
    /\ (i = vector.size (frames_ (this m)) -> GetFrame i m' = Ret (f, m')).
Proof.
  intros Hi Hin. rewrite AddFrame_run. eexists. split; [reflexivity|].
  rewrite !GetFrame_run. cbn [this frames_].
  rewrite to_size_t_nonneg by (assumption || lia).
  unfold vector.size in *. split.
  - intros Hlt.
    destruct (lookup_lt_is_Some_2 (frames_ (this m)) (Z.to_nat i)) as [g Hg]; [lia|].
    exists g. rewrite lookup_app_l by lia. rewrite Hg. split; reflexivity.
  - intros ->. rewrite Nat2Z.id. rewrite list_lookup_middle by reflexivity.
    reflexivity.
Qed.

(** X5: the start time is fixed by the first observation.  [AddFrame] on a
    track with observations leaves [GetStartTime()] as it is; on a track
    without, where it was undefined, it makes [GetStartTime()] and
    [GetEndTime()] the frame index of the observation added. *)
Theorem AddFrame_start_time f m :
  exists m',
    AddFrame f m = Ret (tt, m')
    /\ (forall s, GetStartTime m = Ret (s, m) -> GetStartTime m' = Ret (s, m'))
    /\ (GetStartTime m = Undef ->
        GetStartTime m' = Ret (frame_idx f, m')
        /\ GetEndTime m' = Ret (frame_idx f, m')).
Proof.
  rewrite AddFrame_run. eexists. split; [reflexivity|].
  rewrite !GetStartTime_run, GetEndTime_run. cbn [this frames_].
  rewrite last_snoc.
  destruct (frames_ (this m)) as [|f0 v].
  - split; [intros s E; discriminate E|]. intros _. split; reflexivity.
  - cbn [head app]. split; [|intros E; discriminate E].
    intros s E. injection E as <-. reflexivity.
Qed.

(** ** Eligibility *)

(** X6: [EligibleForReconstruction()] tells whether the accessors of the
    first and the last observation are defined: when it returns [true],
    [GetStartTime()], [GetEndTime()], [GetLastFrame()] and [GetFrame(0)] all
    return; when it returns [false], all four are undefined behaviour. *)
Theorem eligible_iff_accessors_defined m :
  exists b,
    EligibleForReconstruction m = Ret (b, m)
    /\ (b = true ->
        exists first latest,
          GetStartTime m = Ret (frame_idx first, m)
          /\ GetFrame 0 m = Ret (first, m)
          /\ GetEndTime m = Ret (frame_idx latest, m)
          /\ GetLastFrame m = Ret (latest, m))
    /\ (b = false ->
        GetStartTime m = Undef /\ GetFrame 0 m = Undef
        /\ GetEndTime m = Undef /\ GetLastFrame m = Undef).
Proof.
  eexists. split; [apply EligibleForReconstruction_run|].
  rewrite GetStartTime_run, GetEndTime_run, GetLastFrame_run, GetFrame_run.
  change (Z.to_nat (to_size_t 0)) with 0%nat. rewrite <- head_lookup.
  unfold vector.size.
  destruct (frames_ (this m)) as [|f0 v] eqn:Ev.
  - split; [intros E; discriminate E|]. intros _. repeat split.
  - rewrite <- Ev. split.
    + intros _. destruct (last (frames_ (this m))) as [latest|] eqn:El.
      * exists f0, latest. rewrite Ev. repeat split.
      * apply last_None in El. rewrite Ev in El. discriminate El.
    + intros E. apply Z.leb_gt in E. rewrite Ev in E. cbn [length] in E. lia.
Qed.

(** X7: eligibility is never lost.  After a run of [AddFrame] calls the
    track is eligible exactly when it was before or the run was not empty. *)
Theorem eligible_after_AddFrames fs m :
  exists b b' m',
    EligibleForReconstruction m = Ret (b, m)
    /\ AddFrames fs m = Ret (tt, m')
    /\ EligibleForReconstruction m' = Ret (b', m')
    /\ (b' = true <-> b = true \/ fs <> []).
Proof.
  rewrite AddFrames_run. do 3 eexists.
  split; [apply EligibleForReconstruction_run|]. split; [reflexivity|].
  split; [apply EligibleForReconstruction_run|].
  cbn [this frames_]. unfold vector.size. rewrite length_app, !Z.leb_le.
  destruct fs as [|f fs].
  - cbn [length]. rewrite Nat.add_0_r. split; [auto|]. intros [H|H]; [exact H|].
    contradiction H. reflexivity.
  - cbn [length]. split; [right; discriminate | lia].
Qed.

(** ** Increasing frame indices *)

(** X8: on a track with increasing frame indices and at least one
    observation, [GetStartTime() <= GetEndTime()], the track has at most
    [GetEndTime() - GetStartTime() + 1] observations, and the frame index of
    every stored observation lies between the two. *)
Theorem increasing_span m :
  increasing (this m) ->
  frames_ (this m) <> [] ->
  exists s e n,
    GetStartTime m = Ret (s, m)
    /\ GetEndTime m = Ret (e, m)
    /\ GetSize m = Ret (n, m)
    /\ s <= e
    /\ n <= e - s + 1
    /\ forall i f, is_int i -> GetFrame i m = Ret (f, m) ->
                   s <= frame_idx f <= e.
Proof.
  intros Hinc Hne.
  rewrite GetStartTime_run, GetEndTime_run, GetSize_run.
  destruct (head (frames_ (this m))) as [first|] eqn:Eh;
    [|apply head_None in Eh; contradiction].
  destruct (last (frames_ (this m))) as [latest|] eqn:El;
    [|apply last_None in El; contradiction].
  unfold increasing, frame_indices in Hinc.
  assert (Hh : head (frame_idx <$> frames_ (this m)) = Some (frame_idx first)).
  { rewrite head_lookup, list_lookup_fmap, <- head_lookup, Eh. reflexivity. }
  assert (Hl : last (frame_idx <$> frames_ (this m)) = Some (frame_idx latest)).
  { rewrite fmap_last, El. reflexivity. }
  destruct (sorted_span _ _ _ Hinc Hh Hl) as [Hle Hlen].
  rewrite length_fmap in Hlen.
  do 3 eexists. do 3 (split; [reflexivity|]).
  split; [exact Hle|]. split; [exact Hlen|].
  intros i f Hi Hrun. rewrite GetFrame_run in Hrun.
  destruct (frames_ (this m) !! Z.to_nat (to_size_t i)) as [g|] eqn:Eg;
    [|discriminate Hrun].
  injection Hrun as ->.
  set (k := Z.to_nat (to_size_t i)) in *.
  assert (Hk : (frame_idx <$> frames_ (this m)) !! k = Some (frame_idx f)).
  { rewrite list_lookup_fmap, Eg. reflexivity. }
  assert (Hklt : (k < length (frames_ (this m)))%nat).
  { apply lookup_lt_is_Some. eexists. exact Eg. }
  split.
  - destruct k as [|k].
    + rewrite <- head_lookup, Hh in Hk. injection Hk as ->. lia.
    + rewrite head_lookup in Hh.
      pose proof (sorted_lookup_lt _ _ _ _ _ Hinc Hh Hk). lia.
  - rewrite last_lookup, length_fmap in Hl.
    destruct (decide (k = pred (length (frames_ (this m))))) as [->|Hneq].
    + rewrite Hl in Hk. injection Hk as ->. lia.
    + pose proof (sorted_lookup_lt _ _ _ _ _ Hinc Hk Hl). lia.
Qed.

(** X9: on a track with increasing frame indices, an observation at an
    earlier position has a smaller frame index: no two positions share a
    frame index. *)
Theorem increasing_positions_ordered i j m :
  increasing (this m) ->
  is_int i -> is_int j ->
  0 <= i < j ->
  j < vector.size (frames_ (this m)) ->
  exists f g,
    GetFrame i m = Ret (f, m)
    /\ GetFrame j m = Ret (g, m)
    /\ frame_idx f < frame_idx g.
Proof.
  intros Hinc Hi Hj Hij Hlt. rewrite !GetFrame_run.
  rewrite !to_size_t_nonneg by (assumption || lia).
  unfold vector.size in Hlt.
  destruct (lookup_lt_is_Some_2 (frames_ (this m)) (Z.to_nat i)) as [f Hf]; [lia|].
  destruct (lookup_lt_is_Some_2 (frames_ (this m)) (Z.to_nat j)) as [g Hg]; [lia|].
  exists f, g. rewrite Hf, Hg. do 2 (split; [reflexivity|]).
  apply (sorted_lookup_lt (frame_idx <$> frames_ (this m)) (Z.to_nat i) (Z.to_nat j)).
  - exact Hinc.
  - rewrite list_lookup_fmap, Hf. reflexivity.
  - rewrite list_lookup_fmap, Hg. reflexivity.
  - lia.
Qed.

(** ** The accessors agree *)

(** X10: [GetFrame(0)] is the observation [GetStartTime()] reads, and
    [GetFrame(n - 1)], for [n] the size as an [int], is [GetLastFrame()];
    this holds on a track without observations too, where [n - 1] is -1 and
    all four calls are undefined. *)
Theorem GetFrame_at_the_ends m :
  vector.size (frames_ (this m)) <= INT_MAX ->
  GetStartTime m = (f <- GetFrame 0 ;; ret (frame_idx f)) m
  /\ GetFrame (vector.size (frames_ (this m)) - 1) m = GetLastFrame m.
Proof.
  intros Hsz. split.
  - unfold bind. rewrite GetStartTime_run, GetFrame_run.
    change (Z.to_nat (to_size_t 0)) with 0%nat. rewrite <- head_lookup.
    destruct (head (frames_ (this m))); reflexivity.
  - rewrite GetFrame_run, GetLastFrame_run, last_lookup.
    unfold vector.size, INT_MAX in *.
    destruct (frames_ (this m)) as [|f0 v].
    + reflexivity.
    + rewrite to_size_t_nonneg.
      * replace (Z.to_nat (Z.of_nat (length (f0 :: v)) - 1))
          with (pred (length (f0 :: v))) by (cbn [length]; lia).
        reflexivity.
      * unfold is_int, INT_MIN, INT_MAX. cbn [length] in *. lia.
      * cbn [length]. lia.
Qed.

(** ** The reconstruction *)

(** X11: storing [p] through the reference [GetReconstruction()] returns
    makes [GetReconstruction()] read [p] and [HasReconstruction()] tell
    whether [p] is not null; the observations and the identifier are as
    before; and the destructor then writes its message exactly when [p] is
    not null. *)
Theorem GetReconstruction_store_then_read (p : option InfiniTamDriver) m :
  exists m',
    GetReconstruction_store p m = Ret (tt, m')
    /\ GetReconstruction m' = Ret (p, m')
    /\ HasReconstruction m' = Ret (bool_decide (p <> None), m')
    /\ GetFrames m' = Ret (frames_ (this m), m')
    /\ GetId m' = Ret (id_ (this m), m')
    /\ Track_dtor m'
       = Ret (tt, mkMachine (this m')
                            (stderr m +:+ (if bool_decide (p <> None)
                                           then deleting_message (id_ (this m))
                                           else ""))).
Proof.
  eexists. split; [reflexivity|]. rewrite Track_dtor_run.
  cbn [this reconstruction id_ frames_ stderr].
  destruct p as [d|].
  - rewrite bool_decide_eq_true_2 by discriminate. repeat split.
  - rewrite bool_decide_eq_false_2 by (intros H; apply H; reflexivity).
    rewrite append_empty_r. repeat split.
Qed.


(** ** Stores through the references the non-const accessors return *)

Lemma GetFrame_store_run i x m :
  GetFrame_store i x m
  = match frames_ (this m) !! Z.to_nat (to_size_t i) with
    | Some _ =>
        Ret (tt, mkMachine (mkTrack (id_ (this m))
                                    (<[Z.to_nat (to_size_t i) := x]> (frames_ (this m)))
                                    (reconstruction (this m)))
                           (stderr m))
    | None => Undef
    end.
Proof.
  unfold GetFrame_store, bind, member, defined, vector.subscript.
  rewrite bool_decide_eq_true_2.
  - destruct (frames_ (this m) !! Z.to_nat (to_size_t i)); reflexivity.
  - unfold to_size_t. apply Z.mod_pos_bound. lia.
Qed.

Lemma GetLastFrame_store_run x m :
  GetLastFrame_store x m
  = match last (frames_ (this m)) with
    | Some _ =>
        Ret (tt, mkMachine (mkTrack (id_ (this m))
                                    (<[pred (length (frames_ (this m))) := x]>
                                       (frames_ (this m)))
                                    (reconstruction (this m)))
                           (stderr m))
    | None => Undef
    end.
Proof.
  unfold GetLastFrame_store, bind, member, defined, vector.back.
  destruct (last (frames_ (this m))); reflexivity.
Qed.

Lemma GetStartTime_indices m :
  GetStartTime m
  = match head (frame_indices (this m)) with
    | Some s => Ret (s, m)
    | None => Undef
    end.
Proof.
  rewrite GetStartTime_run. unfold frame_indices.
  destruct (frames_ (this m)); reflexivity.
Qed.

Lemma GetEndTime_indices m :
  GetEndTime m
  = match last (frame_indices (this m)) with
    | Some e => Ret (e, m)
    | None => Undef
    end.
Proof.
  rewrite GetEndTime_run. unfold frame_indices. rewrite fmap_last.
  destruct (last (frames_ (this m))); reflexivity.
Qed.

(** Two [int]s that are converted to the same index of a vector are the
    same. *)
Lemma to_size_t_position i j :
  is_int i -> is_int j -> 0 <= i <= vector.max_size ->
  Z.to_nat (to_size_t j) = Z.to_nat (to_size_t i) -> j = i.
Proof.
  intros Hi Hj Hin E. rewrite (to_size_t_nonneg i) in E by (assumption || lia).
  destruct (Z.neg_nonneg_cases j) as [Hneg|Hpos].
  - pose proof (to_size_t_negative j Hj Hneg). lia.
  - rewrite to_size_t_nonneg in E by assumption. lia.
Qed.

(** X12: a store through [GetFrame(i)] with [i] in range replaces the
    observation at position [i] and nothing else: [GetFrame(i)] then reads
    what was stored, every other position reads as before, and the size, the
    identifier, the reconstruction and the error stream stay.  With [i] out
    of range the store is undefined behaviour. *)
Theorem GetFrame_store_updates_one i x m :
  is_int i ->
  vector.size (frames_ (this m)) <= vector.max_size ->
  (0 <= i < vector.size (frames_ (this m)) ->
   exists n m',
     GetSize m = Ret (n, m)
     /\ GetFrame_store i x m = Ret (tt, m')
     /\ GetFrame i m' = Ret (x, m')
     /\ (forall j g, is_int j -> j <> i ->
                     GetFrame j m = Ret (g, m) -> GetFrame j m' = Ret (g, m'))
     /\ GetSize m' = Ret (n, m')
     /\ id_ (this m') = id_ (this m)
     /\ reconstruction (this m') = reconstruction (this m)
     /\ stderr m' = stderr m)
  /\ (i < 0 \/ vector.size (frames_ (this m)) <= i ->
      GetFrame_store i x m = Undef).
Proof.
  intros Hi Hmax. rewrite GetFrame_store_run. unfold vector.size in *. split.
  - intros Hin.
    destruct (lookup_lt_is_Some_2 (frames_ (this m)) (Z.to_nat (to_size_t i)))
      as [old Hold].
    { rewrite to_size_t_nonneg by (assumption || lia). lia. }
    rewrite Hold. do 2 eexists.
    split; [apply GetSize_run|]. split; [reflexivity|].
    split; [|split; [|split; [|repeat split]]].
    + rewrite GetFrame_run. cbn [this frames_].
      rewrite list_lookup_insert_eq; [reflexivity|].
      apply lookup_lt_is_Some. eexists. exact Hold.
    + intros j g Hj Hne Hrun. rewrite GetFrame_run in *. cbn [this frames_].
      rewrite list_lookup_insert_ne.
      * destruct (frames_ (this m) !! Z.to_nat (to_size_t j)); [|discriminate Hrun].
        injection Hrun as ->. reflexivity.
      * intros E. apply Hne. symmetry in E.
        apply (to_size_t_position i j Hi Hj); [lia | exact E].
    + rewrite GetSize_run. cbn [this frames_]. unfold vector.size.
      rewrite length_insert. reflexivity.
  - intros Hout.
    assert (frames_ (this m) !! Z.to_nat (to_size_t i) = None) as ->; [|reflexivity].
    apply lookup_ge_None_2. destruct Hout as [Hneg|Hge].
    + pose proof (to_size_t_negative i Hi Hneg). lia.
    + rewrite to_size_t_nonneg by (assumption || lia). lia.
Qed.

(** X13: a store through [GetFrame(i)] that keeps the frame index of the
    observation it replaces (a new view or pose for the same frame) keeps
    the frame indices of the track: [GetStartTime()] and [GetEndTime()]
    return what they returned, and the indices are increasing afterwards
    exactly when they were before. *)
Theorem GetFrame_store_same_frame_idx i x old m :
  is_int i ->
  GetFrame i m = Ret (old, m) ->
  frame_idx x = frame_idx old ->
  exists s e m',
    GetFrame_store i x m = Ret (tt, m')
    /\ GetStartTime m = Ret (s, m) /\ GetStartTime m' = Ret (s, m')
    /\ GetEndTime m = Ret (e, m) /\ GetEndTime m' = Ret (e, m')
    /\ (increasing (this m') <-> increasing (this m)).
Proof.
  intros Hi Hrun Hidx. rewrite GetFrame_run in Hrun. rewrite GetFrame_store_run.
  destruct (frames_ (this m) !! Z.to_nat (to_size_t i)) as [g|] eqn:Eg;
    [|discriminate Hrun].
  injection Hrun as ->.
  set (k := Z.to_nat (to_size_t i)) in *.
  assert (Hsame : frame_idx <$> <[k := x]> (frames_ (this m))
                  = frame_idx <$> frames_ (this m)).
  { rewrite list_fmap_insert. apply list_insert_id.
    rewrite list_lookup_fmap, Eg, Hidx. reflexivity. }
  assert (Hne : frames_ (this m) <> []).
  { intros E. rewrite E in Eg. discriminate Eg. }
  destruct (head (frame_idx <$> frames_ (this m))) as [s|] eqn:Eh.
  2: { apply head_None, fmap_nil_inv in Eh. contradiction. }
  destruct (last (frame_idx <$> frames_ (this m))) as [e|] eqn:El.
  2: { apply last_None, fmap_nil_inv in El. contradiction. }
  exists s, e. eexists. split; [reflexivity|].
  rewrite !GetStartTime_indices, !GetEndTime_indices.
  unfold increasing, frame_indices. cbn [this frames_].
  rewrite Hsame, Eh, El. repeat split; auto.
Qed.

(** X14: a store through [GetLastFrame()] replaces the last observation:
    storing [x] right after [AddFrame(f)] leaves the track as [AddFrame(x)]
    alone would; on a track with observations the store returns, after it
    [GetLastFrame()] reads [x], [GetEndTime()] is the frame index of [x] and
    the size is as before; on a track without the store is undefined
    behaviour. *)
Theorem GetLastFrame_store_replaces_last f x m :
  (u <- AddFrame f ;; GetLastFrame_store x) m = AddFrame x m
  /\ (frames_ (this m) <> [] ->
      exists n m',
        GetSize m = Ret (n, m)
        /\ GetLastFrame_store x m = Ret (tt, m')
        /\ GetLastFrame m' = Ret (x, m')
        /\ GetEndTime m' = Ret (frame_idx x, m')
        /\ GetSize m' = Ret (n, m'))
  /\ (frames_ (this m) = [] -> GetLastFrame_store x m = Undef).
Proof.
  assert (Hsnoc : forall (v : list TrackFrame) y,
             <[pred (length (v ++ [y])) := x]> (v ++ [y]) = v ++ [x]).
  { intros v y. rewrite length_app. cbn [length].
    replace (pred (length v + 1)) with (length v + 0)%nat by lia.
    rewrite insert_app_r. reflexivity. }
  split; [|split].
  - unfold bind. rewrite !AddFrame_run, GetLastFrame_store_run.
    cbn [this frames_ id_ reconstruction stderr].
    rewrite last_snoc, Hsnoc. reflexivity.
  - intros Hne. rewrite GetLastFrame_store_run.
    destruct (frames_ (this m)) as [|y v _] eqn:Ev using rev_ind; [contradiction|].
    rewrite last_snoc, Hsnoc. do 2 eexists.
    split; [apply GetSize_run|]. split; [reflexivity|].
    rewrite GetLastFrame_run, GetEndTime_run, !GetSize_run.
    cbn [this frames_]. rewrite last_snoc, Ev.
    unfold vector.size. rewrite !length_app. repeat split.
  - intros E. rewrite GetLastFrame_store_run, E. reflexivity.
Qed.

(** ** The frame indices under every operation *)

(** Replacing one of a list of increasing numbers keeps them increasing
    exactly when the new number lies between its neighbours. *)
Lemma sorted_insert (l : list Z) (k : nat) (x : Z) :
  StronglySorted Z.lt l -> (k < length l)%nat ->
  (StronglySorted Z.lt (<[k := x]> l)
   <-> (forall j y, k = S j -> l !! j = Some y -> y < x)
       /\ (forall z, l !! S k = Some z -> x < z)).
Proof.
  revert k. induction l as [|a l IH]; intros k Hs Hk; [cbn in Hk; lia|].
  apply StronglySorted_inv in Hs. destruct Hs as [Hs Hall].
  destruct k as [|k].
  - cbn [insert list_insert]. rewrite StronglySorted_cons. split.
    + intros [Hx _]. split; [intros j y E; discriminate E|].
      intros z Hz. rewrite Forall_lookup in Hx. exact (Hx 0%nat z Hz).
    + intros [_ Hnext]. split; [|exact Hs].
      destruct l as [|z l]; [constructor|].
      pose proof (Hnext z eq_refl) as Hxz.
      apply StronglySorted_inv in Hs. destruct Hs as [_ Hz].
      constructor; [exact Hxz|].
      eapply Forall_impl; [exact Hz|]. intros b Hb. cbn in Hb. lia.
  - cbn [length] in Hk. assert (Hk' : (k < length l)%nat) by lia.
    cbn [insert list_insert]. rewrite StronglySorted_cons.
    change (list_insert k x l) with (<[k := x]> l).
    rewrite (IH k Hs Hk'). split.
    + intros (Ha & Hprev & Hnext).
      assert (Hax : a < x).
      { rewrite Forall_lookup in Ha. apply (Ha k x).
        apply list_lookup_insert_eq. exact Hk'. }
      split; [|exact Hnext].
      intros j y E Hy. injection E as <-.
      destruct k as [|k]; cbn in Hy.
      * injection Hy as <-. exact Hax.
      * apply (Hprev k y); [reflexivity | exact Hy].
    + intros (Hprev & Hnext).
      destruct (lookup_lt_is_Some_2 (a :: l) k) as [y Hy]; [cbn [length]; lia|].
      pose proof (Hprev k y eq_refl Hy) as Hyx.
      assert (Hax : a < x).
      { destruct k as [|k]; cbn in Hy.
        - injection Hy as <-. exact Hyx.
        - rewrite Forall_lookup in Hall. pose proof (Hall k y Hy). lia. }
      split; [|split].
      * apply Forall_insert; assumption.
      * intros j z E Hz. subst k. apply (Hprev (S j) z); [reflexivity | exact Hz].
      * exact Hnext.
Qed.

Lemma fmap_lookup_frame_idx (v : list TrackFrame) (j : nat) (y : Z) :
  (frame_idx <$> v) !! j = Some y <-> exists g, v !! j = Some g /\ y = frame_idx g.
Proof.
  rewrite list_lookup_fmap. destruct (v !! j) as [g|]; cbn.
  - split.
    + intros E. injection E as <-. exists g. split; reflexivity.
    + intros (g' & E & ->). injection E as <-. reflexivity.
  - split; [intros E; discriminate E|]. intros (g' & E & _). discriminate E.
Qed.

(** C8, as the code has it: nothing enforces increasing frame indices; they
    are the callers' to keep.  A fresh track has them.  On a track that has
    them, [AddFrame] keeps them exactly when the frame index of the new
    observation is greater than that of the last stored one (any index will
    do for the first observation); a store through the reference the
    non-const [GetFrame(i)] returns, exactly when the frame index stored
    lies between those of the neighbours of position [i]; a store through
    the reference the non-const [GetLastFrame()] returns, exactly when it is
    greater than that of the observation before the last.  The member
    functions that read return with the track, and everything else, as it
    was; a store through [GetReconstruction()] and the body of the
    destructor leave the observations as they were. *)
Theorem increasing_kept_by_callers :
  (forall id, increasing (Track_ctor id : Track))
  /\ (forall m,
        increasing (this m) ->
        (forall f, exists m',
            AddFrame f m = Ret (tt, m')
            /\ (increasing (this m')
                <-> forall latest, last (frames_ (this m)) = Some latest ->
                                   frame_idx latest < frame_idx f))
        /\ (forall i x,
              is_int i -> 0 <= i < vector.size (frames_ (this m)) ->
              exists m',
                GetFrame_store i x m = Ret (tt, m')
                /\ (increasing (this m')
                    <-> (forall g, 0 < i ->
                                   frames_ (this m) !! Z.to_nat (i - 1) = Some g ->
                                   frame_idx g < frame_idx x)
                        /\ (forall g, frames_ (this m) !! Z.to_nat (i + 1) = Some g ->
                                      frame_idx x < frame_idx g)))
        /\ (forall x,
              frames_ (this m) <> [] ->
              exists m',
                GetLastFrame_store x m = Ret (tt, m')
                /\ (increasing (this m')
                    <-> forall j g, length (frames_ (this m)) = S (S j) ->
                                    frames_ (this m) !! j = Some g ->
                                    frame_idx g < frame_idx x)))
  /\ (forall m,
        (exists n, GetSize m = Ret (n, m))
        /\ (exists v, GetFrames m = Ret (v, m))
        /\ (exists id, GetId m = Ret (id, m))
        /\ (exists b, HasReconstruction m = Ret (b, m))
        /\ (exists p, GetReconstruction m = Ret (p, m))
        /\ (exists b, EligibleForReconstruction m = Ret (b, m))
        /\ (forall s m', GetStartTime m = Ret (s, m') -> m' = m)
        /\ (forall e m', GetEndTime m = Ret (e, m') -> m' = m)
        /\ (forall i f m', GetFrame i m = Ret (f, m') -> m' = m)
        /\ (forall f m', GetLastFrame m = Ret (f, m') -> m' = m)
        /\ (forall p, exists m',
              GetReconstruction_store p m = Ret (tt, m')
              /\ frames_ (this m') = frames_ (this m))
        /\ (exists m', Track_dtor m = Ret (tt, m') /\ this m' = this m)).
Proof.
  split; [intros id; constructor|]. split.
  - intros m Hinc. split; [|split].
    + intros f. rewrite AddFrame_run. eexists. split; [reflexivity|].
      unfold increasing, frame_indices in *. cbn [this frames_].
      rewrite fmap_app. cbn [fmap list_fmap].
      rewrite (increasing_snoc _ _ Hinc). rewrite fmap_last.
      split.
      * intros H latest E. apply H. rewrite E. reflexivity.
      * intros H y E.
        destruct (last (frames_ (this m))) as [latest|]; [|discriminate E].
        injection E as <-. apply H. reflexivity.
    + intros i x Hi Hin. rewrite GetFrame_store_run.
      rewrite to_size_t_nonneg by (assumption || lia).
      unfold vector.size in Hin.
      destruct (lookup_lt_is_Some_2 (frames_ (this m)) (Z.to_nat i)) as [old Hold];
        [lia|].
      rewrite Hold. eexists. split; [reflexivity|].
      unfold increasing, frame_indices in *. cbn [this frames_].
      rewrite list_fmap_insert.
      rewrite (sorted_insert _ (Z.to_nat i) (frame_idx x) Hinc)
        by (rewrite length_fmap; lia).
      split.
      * intros [Hprev Hnext]. split.
        -- intros g Hpos Hg. apply (Hprev (Z.to_nat (i - 1))); [lia|].
           apply fmap_lookup_frame_idx. exists g. split; [exact Hg | reflexivity].
        -- intros g Hg. apply Hnext.
           apply fmap_lookup_frame_idx. exists g. split; [|reflexivity].
           replace (S (Z.to_nat i)) with (Z.to_nat (i + 1)) by lia. exact Hg.
      * intros [Hprev Hnext]. split.
        -- intros j y Ej Hy. apply fmap_lookup_frame_idx in Hy.
           destruct Hy as (g & Hg & ->). apply Hprev; [lia|].
           replace (Z.to_nat (i - 1)) with j by lia. exact Hg.
        -- intros z Hz. apply fmap_lookup_frame_idx in Hz.
           destruct Hz as (g & Hg & ->). apply Hnext.
           replace (Z.to_nat (i + 1)) with (S (Z.to_nat i)) by lia. exact Hg.
    + intros x Hne. rewrite GetLastFrame_store_run.
      destruct (last (frames_ (this m))) as [old|] eqn:El;
        [|apply last_None in El; contradiction].
      eexists. split; [reflexivity|].
      unfold increasing, frame_indices in *. cbn [this frames_].
      rewrite list_fmap_insert.
      assert (Hlen : (0 < length (frames_ (this m)))%nat).
      { destruct (frames_ (this m)); [contradiction | cbn; lia]. }
      rewrite (sorted_insert _ (pred (length (frames_ (this m)))) (frame_idx x) Hinc)
        by (rewrite length_fmap; lia).
      split.
      * intros [Hprev _] j g Ej Hg. apply (Hprev j); [lia|].
        apply fmap_lookup_frame_idx. exists g. split; [exact Hg | reflexivity].
      * intros Hprev. split.
        -- intros j y Ej Hy. apply fmap_lookup_frame_idx in Hy.
           destruct Hy as (g & Hg & ->). apply (Hprev j); [lia | exact Hg].
        -- intros z Hz. apply lookup_lt_Some in Hz.
           rewrite length_fmap in Hz. lia.
  - intros m.
    split; [eexists; apply GetSize_run|].
    do 4 (split; [eexists; reflexivity|]).
    split; [eexists; apply EligibleForReconstruction_run|].
    split; [|split; [|split; [|split; [|split]]]].
    + intros s m' E. rewrite GetStartTime_run in E.
      destruct (head (frames_ (this m))); by simplify_eq.
    + intros e m' E. rewrite GetEndTime_run in E.
      destruct (last (frames_ (this m))); by simplify_eq.
    + intros i f m' E. rewrite GetFrame_run in E.
      destruct (frames_ (this m) !! Z.to_nat (to_size_t i)); by simplify_eq.
    + intros f m' E. rewrite GetLastFrame_run in E.
      destruct (last (frames_ (this m))); by simplify_eq.
    + intros p. eexists. split; reflexivity.
    + rewrite Track_dtor_run.
      destruct (reconstruction (this m)); eexists; split; reflexivity.
Qed.

End TrackFacts.

(** ** Destruction *)

Section DestructionFacts.

Variable InstanceView : Type.
Variable InfiniTamDriver : Type.
Context `{EqDecision InfiniTamDriver}.

Local Abbreviation machine := (machine InstanceView InfiniTamDriver).

Implicit Types (m : machine) (o : owners InfiniTamDriver).

(** C7, as the code has it: destroying a track always completes.  With [b]
    the answer of [HasReconstruction()], what the destruction adds to the
    error stream is the message carrying the identifier of the track when
    [b] is true and nothing otherwise (different identifiers give different
    messages).  The body does nothing else; the destruction of the member
    [reconstruction] that follows gives up the track's share of its driver:
    that driver has one owner less, so none, and is deleted, when the track
    was the last one; every other driver keeps its owners. *)
Theorem Track_destruction m o :
  (exists b o',
      HasReconstruction m = Ret (b, m)
      /\ Track_destroy m o
         = Ret (stderr m +:+ (if b then deleting_message (id_ (this m)) else ""), o')
      /\ match reconstruction (this m) with
         | Some d =>
             b = true
             /\ o' d = pred (o d)
             /\ (o d = 1%nat -> o' d = 0%nat)
             /\ (forall d', d' <> d -> o' d' = o d')
         | None => b = false /\ forall d, o' d = o d
         end)
  /\ (forall id id', deleting_message id = deleting_message id' -> id = id').
Proof.
  split; [|apply deleting_message_inj].
  unfold Track_destroy, HasReconstruction, bind, member, ret.
  rewrite Track_dtor_run.
  destruct (reconstruction (this m)) as [d|] eqn:Ed.
  - do 2 eexists. split; [reflexivity|].
    cbn [this stderr]. rewrite Ed. split; [reflexivity|].
    unfold shared_ptr_dtor. split; [reflexivity|].
    rewrite decide_True by reflexivity. split; [reflexivity|].
    split; [intros ->; reflexivity|].
    intros d' Hne. rewrite decide_False by assumption. reflexivity.
  - do 2 eexists. split; [reflexivity|].
    rewrite Ed, append_empty_r. split; [reflexivity|].
    split; [reflexivity|]. intros d. reflexivity.
Qed.

End DestructionFacts.

(** * The properties on the concrete run *)

Section Runs.

Import Example.

(** C1 fails as stated: the track ends at frame 8, and an observation of
    frame 8 is not rejected: the call returns and the observation is stored
    as the fourth one. *)
Lemma AddFrame_stale_index_accepted :
  GetEndTime (start track578) = Ret (8, start track578)
  /\ frame_idx (frame 8 person) <= 8
  /\ AddFrame (frame 8 person) (start track578)
     = Ret (tt, start (mkTrack 42 [frame 5 car; frame 7 car; frame 8 car; frame 8 person]
                               None))
  /\ AddFrame (frame 8 person) (start track578) <> Raise InvariantViolation.
Proof.
  split; [reflexivity|]. split; [cbn; lia|]. split; [reflexivity|].
  intros E. discriminate E.
Qed.

(** C5 at work: frame 9 after frames 5, 7 and 8. *)
Lemma AddFrame_size_and_end_time_witness :
  exists n m',
    GetSize (start track578) = Ret (n, start track578)
    /\ AddFrame (frame 9 car) (start track578) = Ret (tt, m')
    /\ GetSize m' = Ret (n + 1, m')
    /\ GetEndTime m' = Ret (9, m').
Proof.
  apply (AddFrame_size_and_end_time view driver (frame 9 car) (start track578)).
  intros latest E. cbn in E. injection E as <-. cbn. lia.
Defined.

(** C8 fails as stated: the frame indices 5, 7, 8 are increasing, and after
    [AddFrame] of a second observation of frame 8 they are not. *)
Lemma AddFrame_breaks_increasing :
  increasing track578
  /\ AddFrame (frame 8 car) (start track578)
     = Ret (tt, start (mkTrack 42 [frame 5 car; frame 7 car; frame 8 car; frame 8 car] None))
  /\ ~ increasing (mkTrack 42 [frame 5 car; frame 7 car; frame 8 car; frame 8 car]
                             (None : option driver)).
Proof.
  split; [|split].
  - unfold increasing, frame_indices. cbn. repeat constructor; lia.
  - reflexivity.
  - unfold increasing, frame_indices. cbn. intros H.
    apply StronglySorted_app_1_elem_of with (l1 := [5; 7; 8]) (l2 := [8]) (x1 := 8) (x2 := 8) in H.
    + lia.
    + apply list_elem_of_In. cbn. auto.
    + apply list_elem_of_In. cbn. auto.
Qed.

(** C8 as amended, at work on the track 5, 7, 8: frame 9 added, frame 6
    stored at position 1 and frame 9 stored over the last observation keep
    the indices increasing; frame 9 stored at position 1 does not. *)
Lemma increasing_kept_by_callers_witness :
  increasing (this (start track578))
  /\ (exists m',
         AddFrame (frame 9 car) (start track578) = Ret (tt, m')
         /\ increasing (this m'))
  /\ (exists m',
         GetFrame_store 1 (frame 6 car) (start track578) = Ret (tt, m')
         /\ increasing (this m'))
  /\ (exists m',
         GetFrame_store 1 (frame 9 car) (start track578) = Ret (tt, m')
         /\ ~ increasing (this m'))
  /\ (exists m',
         GetLastFrame_store (frame 9 car) (start track578) = Ret (tt, m')
         /\ increasing (this m')).
Proof.
  assert (Hinc : increasing (this (start track578))).
  { unfold increasing, frame_indices. cbn. repeat constructor; lia. }
  assert (Hint : is_int 1) by (unfold is_int, INT_MIN, INT_MAX; lia).
  assert (Hin : 0 <= 1 < vector.size (frames_ (this (start track578)))).
  { vm_compute. split; [discriminate | reflexivity]. }
  split; [exact Hinc|].
  destruct (increasing_kept_by_callers view driver) as (_ & Hkept & _).
  destruct (Hkept (start track578) Hinc) as (Hadd & Hstore & Hlast).
  split; [|split; [|split]].
  - destruct (Hadd (frame 9 car)) as (m' & Hrun & Hiff).
    exists m'. split; [exact Hrun|]. apply Hiff.
    intros latest E. cbn in E. injection E as <-. cbn. lia.
  - destruct (Hstore 1 (frame 6 car) Hint Hin) as (m' & Hrun & Hiff).
    exists m'. split; [exact Hrun|]. apply Hiff. split.
    + intros g _ E. cbn in E. injection E as <-. cbn. lia.
    + intros g E. cbn in E. injection E as <-. cbn. lia.
  - destruct (Hstore 1 (frame 9 car) Hint Hin) as (m' & Hrun & Hiff).
    exists m'. split; [exact Hrun|]. intros Hafter.
    apply Hiff in Hafter. destruct Hafter as [_ Hnext].
    specialize (Hnext (frame 8 car) eq_refl). cbn in Hnext. lia.
  - destruct (Hlast (frame 9 car)) as (m' & Hrun & Hiff); [discriminate|].
    exists m'. split; [exact Hrun|]. apply Hiff.
    intros j g Ej E. cbn in Ej. injection Ej as <-.
    cbn in E. injection E as <-. cbn. lia.
Defined.

(** C6 fails as stated: on a track without observations neither call
    raises the empty-state signal; both are undefined. *)
Lemma empty_track_times_raise_nothing :
  GetStartTime (start (Track_ctor 42)) = Undef
  /\ GetEndTime (start (Track_ctor 42)) = Undef
  /\ GetStartTime (start (Track_ctor 42)) <> Raise EmptyState
  /\ GetEndTime (start (Track_ctor 42)) <> Raise EmptyState.
Proof. repeat split; intros E; discriminate E. Qed.

(** C6 as amended, at work: the scenario of the specification. *)
Lemma start_and_end_time_witness :
  GetStartTime (start track578) = Ret (5, start track578)
  /\ GetEndTime (start track578) = Ret (8, start track578)
  /\ GetStartTime (start (Track_ctor 42)) = Undef
  /\ GetEndTime (start (Track_ctor 42)) = Undef.
Proof.
  destruct (start_and_end_time view driver (start track578)) as (Hs & He & _).
  destruct (start_and_end_time view driver (start (Track_ctor 42))) as (_ & _ & Hu).
  split; [apply (Hs (frame 5 car)); reflexivity|].
  split; [apply (He (frame 8 car)); reflexivity|].
  apply Hu. reflexivity.
Defined.

(** C9 at work: positions 0 to 2 hold an observation, 3 and -1 do not. *)
Lemma GetFrame_unchecked_witness :
  GetFrame 1 (start track578) = Ret (frame 7 car, start track578)
  /\ GetFrame 3 (start track578) = Undef
  /\ GetFrame (-1) (start track578) = Undef.
Proof.
  assert (Hmax : vector.size (frames_ (this (start track578))) <= vector.max_size).
  { vm_compute. discriminate. }
  split; [|split].
  - destruct (GetFrame_unchecked view driver 1 (start track578)) as [Hin _].
    + unfold is_int, INT_MIN, INT_MAX. lia.
    + exact Hmax.
    + destruct Hin as (f & Hf & Hrun).
      * vm_compute. split; [discriminate | reflexivity].
      * cbn in Hf. injection Hf as <-. exact Hrun.
  - destruct (GetFrame_unchecked view driver 3 (start track578)) as [_ Hout].
    + unfold is_int, INT_MIN, INT_MAX. lia.
    + exact Hmax.
    + apply Hout. right. vm_compute. discriminate.
  - destruct (GetFrame_unchecked view driver (-1) (start track578)) as [_ Hout].
    + unfold is_int, INT_MIN, INT_MAX. lia.
    + exact Hmax.
    + apply Hout. left. lia.
Defined.

Lemma pose_rigid (tx ty tz : Z) : Matrix.rigid (pose tx ty tz).
Proof.
  split; [reflexivity|]. split.
  - apply Qc_is_canon. reflexivity.
  - intros i j Hi Hj.
    do 3 (destruct i as [|i];
          [do 3 (destruct j as [|j]; [apply Qc_is_canon; reflexivity|]); lia|]);
    lia.
Qed.

(** C3 at work: past the end, at the first observation, and at the last
    one. *)
Lemma GetFramePose_relative_to_first_witness :
  GetFramePose 3 (start track578) = Ret (None, start track578)
  /\ GetFramePose 0 (start track578) = Ret (Some Matrix.Identity, start track578)
  /\ GetFramePose 2 (start track578)
     = Ret (Some (Matrix.mul (Matrix.inverse (pose 5 2 0)) (pose 8 2 0)), start track578).
Proof.
  destruct (GetFramePose_relative_to_first view driver (start track578))
    as (Hout & Hfirst & Hin).
  split; [|split].
  - apply Hout. right. vm_compute. discriminate.
  - apply (Hfirst (frame 5 car)); [reflexivity | apply pose_rigid].
  - destruct (Hin 2) as (first & f & Ef & Eg & Hrun).
    + vm_compute. split; [discriminate | reflexivity].
    + cbn in Ef, Eg. injection Ef as <-. injection Eg as <-. exact Hrun.
Defined.

(** C4 at work: a person does not continue a track of a car. *)
Lemma ScoreMatch_range_and_veto_witness :
  exists score : Qc,
    ScoreMatch signals (frame 9 person) (start track578) = Ret (score, start track578)
    /\ (0 <= score /\ score <= 1)%Qc
    /\ score = 0%Qc.
Proof.
  destruct (ScoreMatch_range_and_veto view driver signals (frame 9 person) (start track578))
    as (score & Hrun & Hrange & Hveto).
  exists score. split; [exact Hrun|]. split; [exact Hrange|].
  apply (Hveto (frame 8 car)); [reflexivity|].
  cbn. unfold person, car. lia.
Defined.

(** C2 at work: three observations make a track eligible, none does not. *)
Lemma EligibleForReconstruction_threshold_witness :
  EligibleForReconstruction (start track578) = Ret (true, start track578)
  /\ EligibleForReconstruction (start (Track_ctor 42))
     = Ret (false, start (Track_ctor 42)).
Proof.
  split.
  - destruct (EligibleForReconstruction_threshold view driver (start track578))
      as (n & b & Hsize & Hrun & Hiff).
    rewrite GetSize_run in Hsize. injection Hsize as <-.
    replace b with true in Hrun; [exact Hrun|].
    symmetry. apply Hiff. vm_compute. discriminate.
  - destruct (EligibleForReconstruction_threshold view driver (start (Track_ctor 42)))
      as (n & b & Hsize & Hrun & Hiff).
    rewrite GetSize_run in Hsize. injection Hsize as <-.
    replace b with false in Hrun; [exact Hrun|].
    destruct b; [|reflexivity].
    destruct Hiff as [Hle _]. specialize (Hle eq_refl). vm_compute in Hle.
    exfalso. apply Hle. reflexivity.
Defined.

(** The message for track 42. *)
Lemma deleting_message_42 :
  deleting_message 42
  = "Deleting track [42] and its associated reconstruction!" +:+ newline.
Proof. reflexivity. Qed.

(** C7 fails as stated: the track is the one owner of its reconstruction,
    and destroying it, besides writing the message, leaves the
    reconstruction without owner: it is released with the track. *)
Lemma destroying_last_owner_releases :
  HasReconstruction (start reconstructed) = Ret (true, start reconstructed)
  /\ match Track_destroy (start reconstructed) (fun _ => 1%nat) with
     | Ret (err, o') =>
         err = "Deleting track [42] and its associated reconstruction!" +:+ newline
         /\ o' tt = 0%nat
     | _ => False
     end.
Proof. split; [reflexivity|]. split; reflexivity. Qed.

(** C7 as amended, at work: a reconstruction with a second owner survives
    the track with one owner left, the message written; a track without
    reconstruction goes without a word. *)
Lemma Track_destruction_witness :
  (exists o',
      Track_destroy (start reconstructed) (fun _ => 2%nat)
      = Ret ("Deleting track [42] and its associated reconstruction!" +:+ newline, o')
      /\ o' tt = 1%nat)
  /\ (exists o',
         Track_destroy (start track578) (fun _ => 2%nat) = Ret ("", o')
         /\ o' tt = 2%nat).
Proof.
  split.
  - destruct (Track_destruction view driver (start reconstructed) (fun _ => 2%nat))
      as [(b & o' & Hhas & Hrun & Hb & Hshare & _) _].
    subst b. exists o'. split; [exact Hrun | exact Hshare].
  - destruct (Track_destruction view driver (start track578) (fun _ => 2%nat))
      as [(b & o' & Hhas & Hrun & Hb & Hkeep) _].
    subst b. exists o'. split; [exact Hrun | apply Hkeep].
Defined.

(** ** The further properties on the concrete run *)

Lemma int_small (i : Z) : -100 <= i <= 100 -> is_int i.
Proof. unfold is_int, INT_MIN, INT_MAX. lia. Qed.

Lemma track578_increasing : increasing (this (start track578)).
Proof. unfold increasing, frame_indices. cbn. repeat constructor; lia. Qed.

(** X3 at work: frame 9 added is the last frame; a fresh track has none. *)
Lemma GetLastFrame_is_latest_added_witness :
  (exists m', AddFrame (frame 9 car) (start track578) = Ret (tt, m')
              /\ GetLastFrame m' = Ret (frame 9 car, m'))
  /\ GetLastFrame (start (Track_ctor 42)) = Undef.
Proof.
  split.
  - apply (GetLastFrame_is_latest_added view driver (frame 9 car) (start track578)).
  - apply (GetLastFrame_is_latest_added view driver (frame 9 car) (start (Track_ctor 42))).
    reflexivity.
Defined.

(** X4 at work: after frame 9 is added, position 1 still holds frame 7 and
    position 3 holds frame 9. *)
Lemma AddFrame_keeps_positions_witness :
  exists m',
    AddFrame (frame 9 car) (start track578) = Ret (tt, m')
    /\ GetFrame 1 (start track578) = Ret (frame 7 car, start track578)
    /\ GetFrame 1 m' = Ret (frame 7 car, m')
    /\ GetFrame 3 m' = Ret (frame 9 car, m').
Proof.
  destruct (AddFrame_keeps_positions view driver (frame 9 car) 1 (start track578))
    as (m' & Hrun & Hold & _); [apply int_small; lia | vm_compute; split; discriminate |].
  destruct (AddFrame_keeps_positions view driver (frame 9 car) 3 (start track578))
    as (m'' & Hrun' & _ & Hnew); [apply int_small; lia | vm_compute; split; discriminate |].
  rewrite Hrun in Hrun'. injection Hrun' as <-.
  destruct Hold as (g & Hg & Hg'); [reflexivity|].
  exists m'. split; [exact Hrun|].
  assert (g = frame 7 car) as ->.
  { rewrite GetFrame_run in Hg. cbn in Hg. injection Hg as <-. reflexivity. }
  split; [exact Hg|]. split; [exact Hg'|]. apply Hnew. reflexivity.
Defined.

(** X5 at work: the track still starts at frame 5 after frame 9 is added,
    and a fresh track starts and ends at the frame added first. *)
Lemma AddFrame_start_time_witness :
  (exists m', AddFrame (frame 9 car) (start track578) = Ret (tt, m')
              /\ GetStartTime m' = Ret (5, m'))
  /\ (exists m', AddFrame (frame 9 car) (start (Track_ctor 42)) = Ret (tt, m')
                 /\ GetStartTime m' = Ret (9, m')
                 /\ GetEndTime m' = Ret (9, m')).
Proof.
  split.
  - destruct (AddFrame_start_time view driver (frame 9 car) (start track578))
      as (m' & Hrun & Hkeep & _).
    exists m'. split; [exact Hrun|]. apply Hkeep. reflexivity.
  - destruct (AddFrame_start_time view driver (frame 9 car) (start (Track_ctor 42)))
      as (m' & Hrun & _ & Hfirst).
    exists m'. split; [exact Hrun|]. apply Hfirst. reflexivity.
Defined.

(** X6 at work: the track 5, 7, 8 is eligible and its accessors return; a
    fresh track is not and they do not. *)
Lemma eligible_iff_accessors_defined_witness :
  (exists first latest,
      GetStartTime (start track578) = Ret (frame_idx first, start track578)
      /\ GetFrame 0 (start track578) = Ret (first, start track578)
      /\ GetEndTime (start track578) = Ret (frame_idx latest, start track578)
      /\ GetLastFrame (start track578) = Ret (latest, start track578))
  /\ (GetStartTime (start (Track_ctor 42)) = Undef
      /\ GetFrame 0 (start (Track_ctor 42)) = Undef
      /\ GetEndTime (start (Track_ctor 42)) = Undef
      /\ GetLastFrame (start (Track_ctor 42)) = Undef).
Proof.
  split.
  - destruct (eligible_iff_accessors_defined view driver (start track578))
      as (b & Hrun & Htrue & _).
    apply Htrue. rewrite EligibleForReconstruction_run in Hrun.
    injection Hrun as <-. reflexivity.
  - destruct (eligible_iff_accessors_defined view driver (start (Track_ctor 42)))
      as (b & Hrun & _ & Hfalse).
    apply Hfalse. rewrite EligibleForReconstruction_run in Hrun.
    injection Hrun as <-. reflexivity.
Defined.

(** X7 at work: one observation makes a fresh track eligible. *)
Lemma eligible_after_AddFrames_witness :
  exists m',
    EligibleForReconstruction (start (Track_ctor 42))
    = Ret (false, start (Track_ctor 42))
    /\ AddFrames [frame 5 car] (start (Track_ctor 42)) = Ret (tt, m')
    /\ EligibleForReconstruction m' = Ret (true, m').
Proof.
  destruct (eligible_after_AddFrames view driver [frame 5 car] (start (Track_ctor 42)))
    as (b & b' & m' & Hbefore & Hrun & Hafter & Hiff).
  exists m'. split; [reflexivity|]. split; [exact Hrun|].
  replace b' with true in Hafter; [exact Hafter|].
  symmetry. apply Hiff. right. discriminate.
Defined.

(** X8 at work: three observations between frames 5 and 8. *)
Lemma increasing_span_witness :
  exists s e n,
    GetStartTime (start track578) = Ret (s, start track578)
    /\ GetEndTime (start track578) = Ret (e, start track578)
    /\ GetSize (start track578) = Ret (n, start track578)
    /\ s = 5 /\ e = 8 /\ n = 3
    /\ n <= e - s + 1.
Proof.
  destruct (increasing_span view driver (start track578))
    as (s & e & n & Hs & He & Hn & _ & Hlen & _);
    [apply track578_increasing | discriminate |].
  exists s, e, n. do 3 (split; [assumption|]).
  rewrite GetStartTime_run in Hs. injection Hs as Hs.
  rewrite GetEndTime_run in He. injection He as He.
  rewrite GetSize_run in Hn. injection Hn as Hn.
  cbn in Hs, He. vm_compute in Hn.
  repeat split; (assumption || (symmetry; assumption)).
Defined.

(** X9 at work: position 0 holds frame 5, position 2 frame 8. *)
Lemma increasing_positions_ordered_witness :
  exists f g,
    GetFrame 0 (start track578) = Ret (f, start track578)
    /\ GetFrame 2 (start track578) = Ret (g, start track578)
    /\ frame_idx f < frame_idx g.
Proof.
  apply (increasing_positions_ordered view driver 0 2 (start track578)).
  - apply track578_increasing.
  - apply int_small. lia.
  - apply int_small. lia.
  - lia.
  - vm_compute. reflexivity.
Defined.

(** X10 at work: position 2 of three is the last frame. *)
Lemma GetFrame_at_the_ends_witness :
  GetFrame 2 (start track578) = GetLastFrame (start track578)
  /\ GetFrame (-1) (start (Track_ctor 42)) = GetLastFrame (start (Track_ctor 42)).
Proof.
  split.
  - apply (GetFrame_at_the_ends view driver (start track578)).
    vm_compute. discriminate.
  - apply (GetFrame_at_the_ends view driver (start (Track_ctor 42))).
    vm_compute. discriminate.
Defined.

(** X12 at work: the observation of frame 7 is given the class person;
    position 0 is as before, and there is no position 3 to store to. *)
Lemma GetFrame_store_updates_one_witness :
  (exists m',
      GetFrame_store 1 (frame 7 person) (start track578) = Ret (tt, m')
      /\ GetFrame 1 m' = Ret (frame 7 person, m')
      /\ GetFrame 0 m' = Ret (frame 5 car, m'))
  /\ GetFrame_store 3 (frame 7 person) (start track578) = Undef.
Proof.
  assert (Hmax : vector.size (frames_ (this (start track578))) <= vector.max_size).
  { vm_compute. discriminate. }
  split.
  - destruct (GetFrame_store_updates_one view driver 1 (frame 7 person) (start track578))
      as [Hin _]; [apply int_small; lia | exact Hmax |].
    destruct Hin as (n & m' & _ & Hrun & Hread & Hothers & _).
    { vm_compute. split; [discriminate | reflexivity]. }
    exists m'. split; [exact Hrun|]. split; [exact Hread|].
    apply Hothers; [apply int_small; lia | lia | reflexivity].
  - destruct (GetFrame_store_updates_one view driver 3 (frame 7 person) (start track578))
      as [_ Hout]; [apply int_small; lia | exact Hmax |].
    apply Hout. right. vm_compute. discriminate.
Defined.

(** X13 at work: a new class for the observation of frame 7 leaves the
    track from frame 5 to frame 8. *)
Lemma GetFrame_store_same_frame_idx_witness :
  exists m',
    GetFrame_store 1 (frame 7 person) (start track578) = Ret (tt, m')
    /\ GetStartTime m' = Ret (5, m')
    /\ GetEndTime m' = Ret (8, m')
    /\ increasing (this m').
Proof.
  destruct (GetFrame_store_same_frame_idx view driver 1 (frame 7 person) (frame 7 car)
              (start track578))
    as (s & e & m' & Hrun & Hs & Hs' & He & He' & Hinc);
    [apply int_small; lia | reflexivity | reflexivity |].
  rewrite GetStartTime_run in Hs. injection Hs as <-.
  rewrite GetEndTime_run in He. injection He as <-.
  exists m'. split; [exact Hrun|]. split; [exact Hs'|]. split; [exact He'|].
  apply Hinc. apply track578_increasing.
Defined.

(** X14 at work: frame 9 stored over the last observation, and nothing to
    store to on a fresh track. *)
Lemma GetLastFrame_store_replaces_last_witness :
  (exists m',
      GetLastFrame_store (frame 9 car) (start track578) = Ret (tt, m')
      /\ GetLastFrame m' = Ret (frame 9 car, m')
      /\ GetEndTime m' = Ret (9, m'))
  /\ GetLastFrame_store (frame 9 car) (start (Track_ctor 42)) = Undef.
Proof.
  split.
  - destruct (GetLastFrame_store_replaces_last view driver (frame 5 car) (frame 9 car)
                (start track578))
      as (_ & Hsome & _).
    destruct Hsome as (n & m' & _ & Hrun & Hlast & Hend & _); [discriminate|].
    exists m'. split; [exact Hrun|]. split; [exact Hlast|]. exact Hend.
  - apply (GetLastFrame_store_replaces_last view driver (frame 5 car) (frame 9 car)
             (start (Track_ctor 42))).
    reflexivity.
Defined.

End Runs.
